(** * qs_sounds: the sound tally and the locus keys of [init.py]

    A shallow embedding of the rule-based part of [init.py]:
    [create_id], [sounds_per_word] with its replacement tables, and the
    labelling loop of the main block.

    Python strings are lists of code points.  The character database of
    the interpreter (compatibility decomposition, lower-casing, decimal
    digit values) is not part of the script: the functions that consult
    it take it as a section variable. *)

From Stdlib Require Import ZArith List Bool Ascii String Lia.
From Stdlib Require Import DecimalFacts DecimalN.
From stdpp Require Import gmap list.
Import ListNotations.

Local Open Scope Z_scope.

(** ** Strings *)

(** A Python [str]: the sequence of its code points. *)
Abbreviation str := (list Z).

(** An ASCII literal as a [str]. *)
Definition lit (s : string) : str :=
  map (fun a => Z.of_N (N_of_ascii a)) (list_ascii_of_string s).

(** [a < b], [a == b], [a > b] on [str]: code point by code point, a proper
    prefix first. *)
Fixpoint str_compare (a b : str) : comparison :=
  match a, b with
  | [], [] => Eq
  | [], _ :: _ => Lt
  | _ :: _, [] => Gt
  | x :: a', y :: b' =>
      match x ?= y with
      | Eq => str_compare a' b'
      | c => c
      end
  end.

Definition str_le (a b : str) : bool :=
  match str_compare a b with Gt => false | _ => true end.

Definition str_lt (a b : str) : bool :=
  match str_compare a b with Lt => true | _ => false end.

(** [c in s] for a one-character [c]. *)
Definition contains (c : Z) (s : str) : bool := existsb (Z.eqb c) s.

(** [str.isspace] on one code point: the white space of [str.strip()]. *)
Definition is_space (c : Z) : bool :=
  ((9 <=? c) && (c <=? 13)) || ((28 <=? c) && (c <=? 32))
  || (c =? 133) || (c =? 160) || (c =? 5760)
  || ((8192 <=? c) && (c <=? 8202))
  || (c =? 8232) || (c =? 8233) || (c =? 8239) || (c =? 8287) || (c =? 12288).

(** Drop the leading characters that satisfy [p]. *)
Fixpoint lstrip_with (p : Z -> bool) (s : str) : str :=
  match s with
  | [] => []
  | c :: s' => if p c then lstrip_with p s' else s
  end.

Definition strip_with (p : Z -> bool) (s : str) : str :=
  rev (lstrip_with p (rev (lstrip_with p s))).

(** [s.strip()] *)
Definition strip (s : str) : str := strip_with is_space s.

(** ** Exceptions *)

Inductive exn := ValueError | TypeError | IndexError | KeyError.

Inductive result (A : Type) :=
| Ok (a : A)
| Raise (e : exn).
Arguments Ok {A} a.
Arguments Raise {A} e.

#[global] Instance result_bind : MBind result := fun A B k r =>
  match r with
  | Ok a => k a
  | Raise e => Raise e
  end.

(** The values the script passes around where it mixes types: a string,
    an integer, or [None]. *)
Inductive pyobj :=
| PyStr (s : str)
| PyInt (z : Z)
| PyNone.

(** ** Insertion-ordered dictionaries (the module-level tables) *)

Abbreviation odict := (list (str * str)).

Definition str_eqb (a b : str) : bool := bool_decide (a = b).

(** [d[k] = v]: an existing key keeps its place, a new one goes last. *)
Fixpoint odict_set (k v : str) (d : odict) : odict :=
  match d with
  | [] => [(k, v)]
  | (k', v') :: d' =>
      if str_eqb k k' then (k, v) :: d' else (k', v') :: odict_set k v d'
  end.

(** [d.get(k, dflt)] *)
Fixpoint odict_get (d : odict) (k dflt : str) : str :=
  match d with
  | [] => dflt
  | (k', v') :: d' => if str_eqb k k' then v' else odict_get d' k dflt
  end.

(** ** The replacement tables *)

Module Greek.
Definition alpha := 945.    (* U+03B1 *)
Definition epsilon := 949.  (* U+03B5 *)
Definition theta := 952.    (* U+03B8 *)
Definition iota := 953.     (* U+03B9 *)
Definition kappa := 954.    (* U+03BA *)
Definition omicron := 959.  (* U+03BF *)
Definition pi := 960.       (* U+03C0 *)
Definition final_sigma := 962. (* U+03C2 *)
Definition sigma := 963.    (* U+03C3 *)
Definition tau := 964.      (* U+03C4 *)
Definition upsilon := 965.  (* U+03C5 *)
Definition phi := 966.      (* U+03C6 *)
Definition chi := 967.      (* U+03C7 *)
Definition omega := 969.    (* U+03C9 *)
Definition cap_alpha := 913. (* U+0391 *)
Definition cap_iota := 921.  (* U+0399 *)
Definition rough_breathing := 788. (* U+0314 *)
End Greek.

(** permanent changes *)
Definition one_time : odict :=
  [ ([Greek.final_sigma], [Greek.sigma]);
    ([Greek.theta], [Greek.tau]);
    ([Greek.chi], [Greek.kappa]);
    ([Greek.phi], [Greek.pi]) ].

(** swaps that are just for counting purposes; the surrogates are Latin
    O, e, Y, u, U and the Greek capitals iota and alpha *)
Definition reversible : odict :=
  [ ([Greek.omicron; Greek.iota], lit "O");
    ([Greek.alpha; Greek.iota], [Greek.cap_iota]);
    ([Greek.epsilon; Greek.iota], lit "e");
    ([Greek.upsilon; Greek.iota], lit "Y");
    ([Greek.alpha; Greek.upsilon], [Greek.cap_alpha]);
    ([Greek.epsilon; Greek.upsilon], lit "u");
    ([Greek.omicron; Greek.upsilon], lit "U") ].

(** [for k, v in src.items(): dst[f(k, v)] = ...] *)
Definition odict_update (dst src : odict) : odict :=
  fold_left (fun d kv => odict_set (fst kv) (snd kv) d) src dst.

(** map the reversible replacements back to their original spellings *)
Definition reverse_replacements : odict :=
  fold_left (fun d kv => odict_set (snd kv) (fst kv) d) reversible [].

(** combine the two types of replacements into a single dictionary *)
Definition replacements : odict :=
  odict_update (odict_update [] reversible) one_time.

(** ** Regular expressions of the script *)

Fixpoint starts_with (k s : str) : bool :=
  match k, s with
  | [], _ => true
  | _ :: _, [] => false
  | x :: k', y :: s' => (x =? y) && starts_with k' s'
  end.

(** [re.sub(k, v, s)] for a literal, non-empty pattern [k] and a literal
    [v]: the leftmost occurrences that do not overlap are replaced.
    [skip] counts the characters of the last match still to pass over. *)
Fixpoint re_sub_from (k v s : str) (skip : nat) : str :=
  match s with
  | [] => []
  | c :: s' =>
      match skip with
      | S n => re_sub_from k v s' n
      | O =>
          if starts_with k s
          then v ++ re_sub_from k v s' (length k - 1)
          else c :: re_sub_from k v s' 0
      end
  end.

Definition re_sub (k v s : str) : str := re_sub_from k v s 0.

(** The class [[α-ω ]] of line 168. *)
Definition greek_or_space (c : Z) : bool :=
  ((Greek.alpha <=? c) && (c <=? Greek.omega)) || (c =? 32).

(** [re.sub("[^α-ω ]", "", s)] *)
Definition remove_diacritics (s : str) : str := filter (fun c => greek_or_space c = true) s.

(** The loop of lines 171-172. *)
Definition apply_table (table : odict) (s : str) : str :=
  fold_left (fun t kv => re_sub (fst kv) (snd kv) t) table s.

(** ** The sound tally *)

(** [reverse_replacements.get(char, char)] *)
Definition resolve (c : Z) : str := odict_get reverse_replacements [c] [c].

(** [count[key] = count.get(key, 0) + 1] *)
Definition increment (count : gmap str Z) (key : str) : gmap str Z :=
  <[key := default 0 (count !! key) + 1]> count.

(** [s[0]] *)
Definition first_char (s : str) : result Z :=
  match s with
  | [] => Raise IndexError
  | c :: _ => Ok c
  end.

(** Lines 174-192 of [sounds_per_word], on the canonical sound string. *)
Definition tally (decomposed_text : str) : result (gmap str Z) :=
  if bool_decide (decomposed_text = []) then Ok ∅
  else
    first_letter ← first_char decomposed_text;
    let count : gmap str Z := <[lit "_" ++ resolve first_letter := 1]> ∅ in
    Ok (fold_left (fun count char => increment count (resolve char))
                  decomposed_text count).

Section Sounds.
(** [unicodedata.normalize("NFKD", _)] and [str.lower]. *)
Variable nfkd : str -> str.
Variable lower : str -> str.

(** Lines 154-162 of [sounds_per_word]: the decomposed, lowercased
    text; anything that is not a string counts as the empty word. *)
Definition decomposed (word : pyobj) : str :=
  let word := match word with PyStr s => s | _ => [] end in
  let decomposed_text := nfkd word in
  strip (lower decomposed_text).

(** Lines 154-172: the canonical sound string. *)
Definition normalize (word : pyobj) : str :=
  let decomposed_text := decomposed word in
  let breathing :=
    if contains Greek.rough_breathing decomposed_text then lit "h" else [] in
  let decomposed_text :=
    breathing ++ strip (remove_diacritics decomposed_text) in
  apply_table replacements decomposed_text.

Definition sounds_per_word (word : pyobj) : result (gmap str Z) :=
  tally (normalize word).
End Sounds.

(** ** Locus keys *)

(** The class [[a-z]]. *)
Definition is_lower_az (c : Z) : bool := (97 <=? c) && (c <=? 122).

(** The white space [int()] skips around a number: the ASCII blanks and the
    Unicode spaces outside ASCII. *)
Definition is_int_space (c : Z) : bool :=
  ((9 <=? c) && (c <=? 13)) || (c =? 32) || ((127 <=? c) && is_space c).

Fixpoint uint_codes (d : Decimal.uint) : str :=
  match d with
  | Decimal.Nil => []
  | Decimal.D0 d' => 48 :: uint_codes d'
  | Decimal.D1 d' => 49 :: uint_codes d'
  | Decimal.D2 d' => 50 :: uint_codes d'
  | Decimal.D3 d' => 51 :: uint_codes d'
  | Decimal.D4 d' => 52 :: uint_codes d'
  | Decimal.D5 d' => 53 :: uint_codes d'
  | Decimal.D6 d' => 54 :: uint_codes d'
  | Decimal.D7 d' => 55 :: uint_codes d'
  | Decimal.D8 d' => 56 :: uint_codes d'
  | Decimal.D9 d' => 57 :: uint_codes d'
  end.

(** The default of [sys.int_max_str_digits]: the most digits [int()] reads
    from a string, and the most digits an integer is written with. *)
Definition int_max_str_digits : Z := 4300.

(** The format spec [0<width>d] on an integer: sign, zero fill, digits. An
    integer with more digits than the limit is not written. *)
Definition format_d (width : nat) (n : Z) : result str :=
  let digits := uint_codes (N.to_uint (Z.abs_N n)) in
  let sign := if n <? 0 then lit "-" else [] in
  if Z.of_nat (length digits) <=? int_max_str_digits then
    Ok (sign ++ replicate (width - length sign - length digits) 48 ++ digits)
  else Raise ValueError.

Section Locus.
(** The decimal digit value of a code point, if it has one: what both
    [\d] and [int()] consult. *)
Variable decimal : Z -> option Z.

Definition is_decimal (c : Z) : bool :=
  match decimal c with Some _ => true | None => false end.

(** Length of the longest run of [\d] at the start of [s]. *)
Fixpoint digit_run (s : str) : nat :=
  match s with
  | [] => O
  | c :: s' => if is_decimal c then S (digit_run s') else O
  end.

(** Try [k] digits followed by one letter, then fewer (the greedy [\d+]
    backing off). *)
Fixpoint split_suffix (line : str) (k : nat) : option (str * str) :=
  match k with
  | O => None
  | S k' =>
      match line !! k with
      | Some c =>
          if is_lower_az c then Some (take k line, [c])
          else split_suffix line k'
      | None => split_suffix line k'
      end
  end.

(** [re.match(r"(\d+)([a-z])", line)] with its two groups. *)
Definition re_match_suffix (line : str) : option (str * str) :=
  split_suffix line (digit_run line).

(** Digits with single underscores between them. *)
Fixpoint int_digits (acc : Z) (after_underscore : bool) (s : str)
  : option Z :=
  match s with
  | [] => if after_underscore then None else Some acc
  | c :: s' =>
      if c =? 95 then
        if after_underscore then None else int_digits acc true s'
      else
        match decimal c with
        | Some d => int_digits (10 * acc + d) false s'
        | None => None
        end
  end.

(** The digit characters of a numeral: its underscores do not count, its
    leading zeros do. *)
Definition digit_count (body : str) : nat :=
  length (filter (fun c => c <> 95) body).

(** [int(s)] on a string: base ten, optional sign, blanks around; a numeral
    with more digit characters than the limit is refused. *)
Definition int_str (s : str) : result Z :=
  let s := strip_with is_int_space s in
  let '(sign, body) :=
    match s with
    | 43 :: r => (1, r)
    | 45 :: r => (-1, r)
    | _ => (1, s)
    end in
  match body with
  | [] => Raise ValueError
  | c :: r =>
      match decimal c with
      | None => Raise ValueError
      | Some d =>
          match int_digits d false r with
          | Some n =>
              if Z.of_nat (digit_count (c :: r)) <=? int_max_str_digits
              then Ok (sign * n)
              else Raise ValueError
          | None => Raise ValueError
          end
      end
  end.

(** [int(x)] *)
Definition int_ (x : pyobj) : result Z :=
  match x with
  | PyInt z => Ok z
  | PyStr s => int_str s
  | PyNone => Raise TypeError
  end.

Definition create_id (book : pyobj) (line : str) : result str :=
  let '(numeric, letter) :=
    match re_match_suffix line with
    | Some (numeric, letter) => (numeric, letter)
    | None => (line, [])
    end in
  b ← int_ book;
  book_field ← format_d 2 b;
  n ← int_str numeric;
  line_field ← format_d 3 n;
  Ok (book_field ++ lit "_" ++ line_field ++ letter).
End Locus.

(** On text that is already decomposed and in lower case (lowercase
    letters, combining marks, digits, ASCII punctuation) [NFKD] and
    [lower] return their argument. *)
Definition unchanged (s : str) : str := s.

(** The ASCII rows of the decimal digit table. *)
Definition ascii_decimal (c : Z) : option Z :=
  if (48 <=? c) && (c <=? 57) then Some (c - 48) else None.

(** ** Labelling the lines (main block, lines 213-224) *)

(** A row of the [lines] data frame: its [id] and [label] columns. *)
Record line_rec := { rec_id : str; rec_label : str }.

(** [x.between(left, right)]: both ends included. *)
Definition between (x left right : str) : bool :=
  str_le left x && str_le x right.

(** [lines.loc[lines["id"].between(id_first, id_last), "label"] = "speech"] *)
Definition label_speech (id_first id_last : str) (lines : list line_rec)
  : list line_rec :=
  map (fun r =>
         if between (rec_id r) id_first id_last
         then {| rec_id := rec_id r; rec_label := lit "speech" |}
         else r)
      lines.

(** [lines["id"]]: a frame made from no rows has no columns, and asking for
    one is a [KeyError]. *)
Definition column_id (lines : list line_rec) : result (list str) :=
  match lines with
  | [] => Raise KeyError
  | _ => Ok (map rec_id lines)
  end.

(** [lines["label"] = "narration"] *)
Definition default_label (ids : list str) : list line_rec :=
  map (fun i => {| rec_id := i; rec_label := lit "narration" |}) ids.

(** The effect of the loop on a list of ranges already turned into keys. *)
Definition label_ranges (ranges : list (str * str)) (ids : list str)
  : list line_rec :=
  fold_left (fun lines r => label_speech (fst r) (snd r) lines)
            ranges (default_label ids).

(** [s.split(sep)] for a one-character separator. *)
Fixpoint split_on (sep : Z) (s : str) : list str :=
  match s with
  | [] => [[]]
  | c :: s' =>
      if c =? sep then [] :: split_on sep s'
      else
        match split_on sep s' with
        | part :: parts => (c :: part) :: parts
        | [] => [[c]]
        end
  end.

(** [a, b = parts] *)
Definition unpack2 (parts : list str) : result (str * str) :=
  match parts with
  | [a; b] => Ok (a, b)
  | _ => Raise ValueError
  end.

(** A speech of the DICES API: its first and last locus, as book.line. *)
Record speech := { l_fi : str; l_la : str }.

Section Labels.
Variable decimal : Z -> option Z.

(** Lines 218-222: the two keys of a speech. *)
Definition speech_ids (s : speech) : result (str * str) :=
  first ← unpack2 (split_on 46 (l_fi s));
  last ← unpack2 (split_on 46 (l_la s));
  id_first ← create_id decimal (PyStr (fst first)) (snd first);
  id_last ← create_id decimal (PyStr (fst last)) (snd last);
  Ok (id_first, id_last).

(** The loop of lines 217-224. The keys of a speech are made before the
    [id] column is read. *)
Fixpoint label_loop (speeches : list speech) (lines : list line_rec)
  : result (list line_rec) :=
  match speeches with
  | [] => Ok lines
  | s :: rest =>
      ids ← speech_ids s;
      _ ← column_id lines;
      label_loop rest (label_speech (fst ids) (snd ids) lines)
  end.

(** Lines 213-224. *)
Definition label_lines (ids : list str) (speeches : list speech)
  : result (list line_rec) :=
  label_loop speeches (default_label ids).
End Labels.

(** ** Vocabulary of the statements *)

(** A key that starts with the onset prefix. *)
Definition is_onset (k : str) : bool := starts_with (lit "_") k.

(** Sum of the counts stored under the keys that are not onset keys. *)
Definition body_total (p : gmap str Z) : Z :=
  map_fold (fun k v acc => if is_onset k then acc else v + acc) 0 p.

(** A locus: book, line number and optional suffix letter. *)
Record locus := { loc_book : Z; loc_line : Z; loc_suffix : option Z }.

Definition suffix_str (l : locus) : str :=
  match loc_suffix l with Some c => [c] | None => [] end.

(** [str(n)] for a natural number [n]. *)
Definition str_of_nat (n : Z) : str := uint_codes (N.to_uint (Z.to_N n)).

(** The line attribute of a locus: the number, then the letter if any. *)
Definition locus_line (l : locus) : str :=
  str_of_nat (loc_line l) ++ suffix_str l.

(** The fixed-width key written out digit by digit. *)
Definition locus_key (l : locus) : str :=
  [48 + loc_book l / 10; 48 + loc_book l mod 10; 95;
   48 + loc_line l / 100; 48 + (loc_line l / 10) mod 10;
   48 + loc_line l mod 10] ++ suffix_str l.

Definition suffix_compare (a b : option Z) : comparison :=
  match a, b with
  | None, None => Eq
  | None, Some _ => Lt
  | Some _, None => Gt
  | Some x, Some y => x ?= y
  end.

(** Document order: book, then line, then the bare line before its lettered
    variants. *)
Definition locus_compare (a b : locus) : comparison :=
  match loc_book a ?= loc_book b with
  | Eq =>
      match loc_line a ?= loc_line b with
      | Eq => suffix_compare (loc_suffix a) (loc_suffix b)
      | c => c
      end
  | c => c
  end.

Definition locus_in_range (l : locus) : Prop :=
  0 <= loc_book l <= 99 /\ 0 <= loc_line l <= 999
  /\ match loc_suffix l with Some c => is_lower_az c = true | None => True end.

(** An ASCII digit, and the number a run of them writes. *)
Definition ascii_digit (c : Z) : Prop := 48 <= c <= 57.

Definition digits_value (ds : str) : Z :=
  fold_left (fun acc c => 10 * acc + (c - 48)) ds 0.

(** The number a run of decimal digits writes, by the digit table. *)
Definition decimal_value (decimal : Z -> option Z) (ds : str) : Z :=
  fold_left (fun acc c => 10 * acc + default 0 (decimal c)) ds 0.



(** The four permanent changes as one map on characters. *)
Definition merge_char (c : Z) : Z :=
  if c =? Greek.final_sigma then Greek.sigma
  else if c =? Greek.theta then Greek.tau
  else if c =? Greek.chi then Greek.kappa
  else if c =? Greek.phi then Greek.pi
  else c.

(** A lowercase letter of the range [α-ω]. *)
Definition greek_lower (c : Z) : Prop := Greek.alpha <= c <= Greek.omega.

(** Characters a canonical sound string is made of: the marker [h], the
    letters and the blank that survive line 168, the surrogates. *)
Definition canonical_char (c : Z) : bool :=
  (c =? 104) || greek_or_space c
  || existsb (fun kv => bool_decide (snd kv = [c])) reversible.

(** ** The text of a line and its words (lines 129 and 232) *)

(** [re.sub(r'\s+', ' ', s)]: every run of white space becomes one blank.
    [in_run] tells that the character before was white space. *)
Fixpoint collapse_spaces (s : str) (in_run : bool) : str :=
  match s with
  | [] => []
  | c :: s' =>
      if is_space c then
        if in_run then collapse_spaces s' true
        else 32 :: collapse_spaces s' true
      else c :: collapse_spaces s' false
  end.

(** Line 129: [re.sub(r'\s+', ' ', text).strip()] *)
Definition clean_text (text : str) : str :=
  strip (collapse_spaces text false).

(** [s.split()]: the maximal runs of characters that are not white space. *)
Fixpoint py_split (s : str) : list str :=
  match s with
  | [] => []
  | c :: s' =>
      if is_space c then py_split s'
      else
        let words := py_split s' in
        match s', words with
        | d :: _, w :: ws =>
            if is_space d then [c] :: words else (c :: w) :: ws
        | _, _ => [c] :: words
        end
  end.

(** ** More vocabulary *)

(** [sep.join(parts)] *)
Fixpoint join_on (sep : str) (parts : list str) : str :=
  match parts with
  | [] => []
  | [part] => part
  | part :: rest => part ++ sep ++ join_on sep rest
  end.

(** Number of characters of [s] counted under the key [k]. *)
Definition key_count (k : str) (s : str) : Z :=
  Z.of_nat (length (filter (fun c => resolve c = k) s)).

(** [k] occurs in [s] as a run of adjacent characters. *)
Definition occurs (k s : str) : Prop :=
  exists before after, s = before ++ k ++ after.

(** [x] immediately followed by [y] somewhere in [s]. *)
Fixpoint has_pair (x y : Z) (s : str) : bool :=
  match s with
  | c :: (d :: _) as s' => ((c =? x) && (d =? y)) || has_pair x y s'
  | _ => false
  end.

(** The right half of [strip_with]. *)
Definition rstrip_with (p : Z -> bool) (s : str) : str :=
  rev (lstrip_with p (rev s)).

(** A word of [split()]: not empty and free of white space. *)
Definition is_word (w : str) : Prop :=
  w <> [] /\ Forall (fun c => is_space c = false) w.

(** [a <= b] in document order. *)
Definition locus_leb (a b : locus) : bool :=
  match locus_compare a b with Gt => false | _ => true end.

(** Number of occurrences of the character [c] in [s]. *)
Definition count_char (c : Z) (s : str) : nat :=
  length (filter (fun d => d = c) s).

(** The locus of the DICES API for a locus: book, dot, line. *)
Definition dices_locus (l : locus) : str :=
  str_of_nat (loc_book l) ++ lit "." ++ locus_line l.

(** * Properties *)

(** ** Stripping, filtering and substitution keep the characters they are
    given *)

Lemma lstrip_with_Forall (P : Z -> Prop) p s :
  Forall P s -> Forall P (lstrip_with p s).
Proof.
  induction 1 as [|c s Hc Hs IH]; simpl; [constructor|].
  destruct (p c); [exact IH | by constructor].
Qed.

Lemma strip_with_Forall (P : Z -> Prop) p s :
  Forall P s -> Forall P (strip_with p s).
Proof.
  intros H. unfold strip_with.
  apply Forall_rev, lstrip_with_Forall, Forall_rev, lstrip_with_Forall, H.
Qed.

Lemma lstrip_with_all p s :
  Forall (fun c => p c = true) s -> lstrip_with p s = [].
Proof. induction 1 as [|c s Hc Hs IH]; simpl; [done | by rewrite Hc]. Qed.

Lemma strip_with_all p s :
  Forall (fun c => p c = true) s -> strip_with p s = [].
Proof. intros H. unfold strip_with. by rewrite (lstrip_with_all _ _ H). Qed.

Lemma lstrip_with_none p s :
  Forall (fun c => p c = false) s -> lstrip_with p s = s.
Proof. destruct 1 as [|c s Hc Hs]; simpl; [done | by rewrite Hc]. Qed.

Lemma strip_with_none p s :
  Forall (fun c => p c = false) s -> strip_with p s = s.
Proof.
  intros H. unfold strip_with. rewrite (lstrip_with_none _ _ H).
  rewrite lstrip_with_none; [apply rev_involutive | by apply Forall_rev].
Qed.

Lemma remove_diacritics_Forall s :
  Forall (fun c => greek_or_space c = true) (remove_diacritics s).
Proof.
  unfold remove_diacritics. apply Forall_forall. intros c Hc.
  by apply list_elem_of_filter in Hc as [Hc _].
Qed.

Lemma re_sub_from_Forall (P : Z -> Prop) k v s n :
  Forall P v -> Forall P s -> Forall P (re_sub_from k v s n).
Proof.
  intros Hv Hs. revert n.
  induction Hs as [|c s Hc Hs IH]; intros n; simpl; [constructor|].
  destruct n as [|n]; [|apply IH].
  destruct (starts_with k (c :: s)).
  - apply Forall_app. split; [exact Hv | apply IH].
  - constructor; [exact Hc | apply IH].
Qed.

Lemma apply_table_Forall (P : Z -> Prop) table s :
  Forall (fun kv => Forall P (snd kv)) table ->
  Forall P s -> Forall P (apply_table table s).
Proof.
  unfold apply_table. intros Ht. revert s.
  induction Ht as [|kv table Hkv Ht IH]; intros s Hs; simpl; [exact Hs|].
  apply IH. by apply re_sub_from_Forall.
Qed.

(** A character that does not start the pattern stays where it is. *)
Lemma re_sub_head k v c s :
  match k with x :: _ => x <> c | [] => False end ->
  re_sub k v (c :: s) = c :: re_sub k v s.
Proof.
  unfold re_sub. destruct k as [|x k]; [done|]. intros Hx. simpl.
  destruct (Z.eqb_spec x c); [done | reflexivity].
Qed.

Lemma apply_table_head table c s :
  Forall (fun kv => match fst kv with x :: _ => x <> c | [] => False end)
         table ->
  apply_table table (c :: s) = c :: apply_table table s.
Proof.
  unfold apply_table. intros Ht. revert s.
  induction Ht as [|kv table Hkv Ht IH]; intros s; simpl; [done|].
  by rewrite re_sub_head, IH.
Qed.

(** ** The tally *)

Lemma odict_get_cases d k dflt :
  odict_get d k dflt = dflt \/ In (k, odict_get d k dflt) d.
Proof.
  induction d as [|[k' v'] d IH]; simpl; [by left|].
  unfold str_eqb. case_bool_decide as E.
  - subst k'. right. by left.
  - destruct IH as [IH|IH]; [by left | right; by right].
Qed.

Lemma is_onset_cons c k : is_onset (c :: k) = (95 =? c).
Proof. unfold is_onset. simpl. apply andb_true_r. Qed.

Lemma resolve_not_onset c : c <> 95 -> is_onset (resolve c) = false.
Proof.
  intros Hc. unfold resolve.
  destruct (odict_get_cases reverse_replacements [c] [c]) as [->|H].
  - rewrite is_onset_cons. by apply Z.eqb_neq.
  - revert H. generalize (odict_get reverse_replacements [c] [c]). intros r H.
    vm_compute in H. repeat (destruct H as [H|H]; [by inversion H|]). done.
Qed.

Lemma canonical_char_not_prefix c : canonical_char c = true -> c <> 95.
Proof. intros H ->. vm_compute in H. discriminate. Qed.

Lemma canonical_char_not_breathing c :
  canonical_char c = true -> c <> Greek.rough_breathing.
Proof. intros H ->. vm_compute in H. discriminate. Qed.

Lemma body_step_comm (j1 j2 : str) (z1 z2 y : Z) :
  (if is_onset j1 then (if is_onset j2 then y else z2 + y)
   else z1 + (if is_onset j2 then y else z2 + y))
  = (if is_onset j2 then (if is_onset j1 then y else z1 + y)
     else z2 + (if is_onset j1 then y else z1 + y)).
Proof. destruct (is_onset j1), (is_onset j2); lia. Qed.

Lemma body_total_insert_fresh (m : gmap str Z) k v :
  m !! k = None ->
  body_total (<[k:=v]> m)
  = if is_onset k then body_total m else v + body_total m.
Proof.
  intros Hk. unfold body_total.
  rewrite map_fold_insert_L; [done | | done].
  intros. apply body_step_comm.
Qed.

Lemma body_total_insert (m : gmap str Z) k v :
  is_onset k = false ->
  body_total (<[k:=v]> m) = body_total m - default 0 (m !! k) + v.
Proof.
  intros Hk. destruct (m !! k) as [x|] eqn:E; simpl.
  - rewrite <- (insert_delete_eq m).
    rewrite body_total_insert_fresh by apply lookup_delete_eq.
    rewrite Hk. unfold body_total at 2.
    rewrite (map_fold_delete_L _ _ k x m); [| intros; apply body_step_comm | done].
    rewrite Hk. fold (body_total (delete k m)). lia.
  - rewrite body_total_insert_fresh by done. rewrite Hk. lia.
Qed.

Lemma body_total_increment (m : gmap str Z) k :
  is_onset k = false -> body_total (increment m k) = body_total m + 1.
Proof. intros Hk. unfold increment. rewrite body_total_insert by done. lia. Qed.

Lemma tally_loop_total (s : str) (m : gmap str Z) :
  Forall (fun c => c <> 95) s ->
  body_total (fold_left (fun count char => increment count (resolve char)) s m)
  = body_total m + Z.of_nat (length s).
Proof.
  intros Hs. revert m. induction Hs as [|c s Hc Hs IH]; intros m; simpl.
  - lia.
  - rewrite IH, body_total_increment by (by apply resolve_not_onset). lia.
Qed.

Lemma tally_loop_onset (s : str) (m : gmap str Z) (k : str) :
  Forall (fun c => c <> 95) s -> is_onset k = true ->
  fold_left (fun count char => increment count (resolve char)) s m !! k
  = m !! k.
Proof.
  intros Hs Hk. revert m. induction Hs as [|c s Hc Hs IH]; intros m; simpl.
  - done.
  - rewrite IH. unfold increment. apply lookup_insert_ne.
    intros E. apply resolve_not_onset in Hc. congruence.
Qed.

Lemma tally_cons (c : Z) (s : str) :
  tally (c :: s)
  = Ok (fold_left (fun count char => increment count (resolve char))
                  (c :: s) (<[lit "_" ++ resolve c := 1]> ∅)).
Proof. reflexivity. Qed.

(** What the tally returns on a non-empty string without the prefix
    character. *)
Lemma tally_spec (c : Z) (s : str) :
  Forall (fun c => c <> 95) (c :: s) ->
  exists p,
    tally (c :: s) = Ok p
    /\ p !! (lit "_" ++ resolve c) = Some 1
    /\ (forall k, is_onset k = true -> is_Some (p !! k) ->
        k = lit "_" ++ resolve c)
    /\ body_total p = Z.of_nat (length (c :: s)).
Proof.
  intros Hs. eexists. split; [apply tally_cons|].
  assert (Ho : is_onset (lit "_" ++ resolve c) = true) by reflexivity.
  split; [|split].
  - rewrite tally_loop_onset by done. apply lookup_insert_eq.
  - intros k Hk [v Hv]. rewrite tally_loop_onset in Hv by done.
    destruct (decide (lit "_" ++ resolve c = k)) as [E|E]; [done|].
    rewrite lookup_insert_ne, lookup_empty in Hv by done. discriminate.
  - rewrite tally_loop_total by done.
    rewrite body_total_insert_fresh by apply lookup_empty.
    rewrite Ho. unfold body_total. rewrite map_fold_empty. lia.
Qed.

Section SoundFacts.
Variable nfkd : str -> str.
Variable lower : str -> str.

Lemma normalize_canonical word :
  Forall (fun c => canonical_char c = true) (normalize nfkd lower word).
Proof.
  unfold normalize. apply apply_table_Forall.
  - vm_compute. repeat constructor.
  - apply Forall_app. split.
    + destruct (contains _ _); by repeat constructor.
    + apply strip_with_Forall.
      eapply Forall_impl; [apply remove_diacritics_Forall|].
      intros c Hc. unfold canonical_char. rewrite Hc.
      by rewrite orb_true_r.
Qed.
End SoundFacts.

(** C1: for every word whose canonical sound string is not empty, the
    profile of [sounds_per_word] has exactly one onset key (a key that
    starts with the prefix), its count is 1, and the counts of all the
    other keys add up to the length of the canonical sound string. *)
Theorem sounds_per_word_profile (nfkd lower : str -> str) (word : pyobj) :
  normalize nfkd lower word <> [] ->
  exists (p : gmap str Z) (onset : str),
    sounds_per_word nfkd lower word = Ok p
    /\ is_onset onset = true
    /\ p !! onset = Some 1
    /\ (forall k, is_onset k = true -> is_Some (p !! k) -> k = onset)
    /\ body_total p = Z.of_nat (length (normalize nfkd lower word)).
Proof.
  intros Hne. unfold sounds_per_word.
  pose proof (normalize_canonical nfkd lower word) as Hc.
  destruct (normalize nfkd lower word) as [|c s]; [done|].
  destruct (tally_spec c s) as (p & Hp & H1 & Hu & Ht).
  { eapply Forall_impl; [exact Hc|]. apply canonical_char_not_prefix. }
  exists p, (lit "_" ++ resolve c). done.
Qed.

Lemma sounds_per_word_profile_witness :
  exists (p : gmap str Z) (onset : str),
    sounds_per_word unchanged unchanged
      (PyStr [Greek.omicron; Greek.rough_breathing; Greek.iota]) = Ok p
    /\ is_onset onset = true
    /\ p !! onset = Some 1
    /\ (forall k, is_onset k = true -> is_Some (p !! k) -> k = onset)
    /\ body_total p
       = Z.of_nat (length (normalize unchanged unchanged
           (PyStr [Greek.omicron; Greek.rough_breathing; Greek.iota]))).
Proof. apply sounds_per_word_profile. vm_compute. discriminate. Defined.

(** ** Surrogates are counted under the digraph they stand for *)

Lemma concat_replicate_single (n : nat) (c : Z) :
  concat (replicate n [c]) = replicate n c.
Proof. induction n as [|n IH]; simpl; [done | by rewrite IH]. Qed.

Lemma tally_loop_replicate (n : nat) (c : Z) (m : gmap str Z) :
  fold_left (fun count char => increment count (resolve char))
            (replicate (S n) c) m
  = <[resolve c := default 0 (m !! resolve c) + Z.of_nat (S n)]> m.
Proof.
  revert m. induction n as [|n IH]; intros m.
  - reflexivity.
  - change (replicate (S (S n)) c) with (c :: replicate (S n) c).
    cbn [fold_left]. rewrite IH. unfold increment.
    rewrite lookup_insert_eq, insert_insert_eq. cbn [default].
    apply (f_equal (fun v => <[resolve c := v]> m)). unfold id. lia.
Qed.

(** C2: for every reversible digraph [d] with surrogate [s] and every
    [N >= 1], the tally of [s] repeated [N] times is exactly
    [{d: N, "_" + d: 1}]. *)
Theorem tally_surrogate_round_trip (d s : str) (N : nat) :
  In (d, s) reversible -> (1 <= N)%nat ->
  tally (concat (replicate N s))
  = Ok {[ d := Z.of_nat N; lit "_" ++ d := 1 ]}.
Proof.
  intros Hin HN. destruct N as [|n]; [lia|].
  assert (exists c, s = [c] /\ resolve c = d) as (c & -> & Hd).
  { vm_compute in Hin.
    repeat (destruct Hin as [Hin|Hin];
            [inversion Hin; subst; eexists; split; reflexivity|]).
    done. }
  rewrite concat_replicate_single.
  change (replicate (S n) c) with (c :: replicate n c).
  rewrite tally_cons.
  change (c :: replicate n c) with (replicate (S n) c).
  rewrite tally_loop_replicate, Hd.
  rewrite lookup_insert_ne by (intros E; apply (f_equal length) in E;
                               rewrite length_app in E; simpl in E; lia).
  by rewrite lookup_empty.
Qed.

Lemma tally_surrogate_round_trip_witness :
  tally (concat (replicate 3 (lit "U")))
  = Ok {[ [Greek.omicron; Greek.upsilon] := Z.of_nat 3;
          lit "_" ++ [Greek.omicron; Greek.upsilon] := 1 ]}.
Proof.
  apply tally_surrogate_round_trip; [| lia].
  vm_compute. do 6 right. left. reflexivity.
Defined.

(** ** Rough breathing *)

Lemma contains_false (x : Z) (s : str) :
  Forall (fun c => c <> x) s -> contains x s = false.
Proof.
  induction 1 as [|c s Hc Hs IH]; simpl; [done|].
  rewrite IH, orb_false_r. apply Z.eqb_neq. congruence.
Qed.

Lemma remove_diacritics_blank (s : str) :
  Forall (fun c => ~ greek_lower c) s ->
  Forall (fun c => is_space c = true) (remove_diacritics s).
Proof.
  intros Hs. apply Forall_forall. intros c Hc.
  apply list_elem_of_filter in Hc as [Hg Hc].
  rewrite Forall_forall in Hs. specialize (Hs c Hc).
  unfold greek_or_space in Hg. apply orb_true_iff in Hg as [Hg|Hg].
  - exfalso. apply Hs. unfold greek_lower. lia.
  - apply Z.eqb_eq in Hg. by subst c.
Qed.

(** C5: when the decomposed, lowercased text holds the rough breathing
    mark, the canonical sound string starts with the marker [h] and the
    mark is gone from it; if the text has no letter of the alphabet
    besides, the profile is [{"_h": 1, "h": 1}]. *)
Theorem rough_breathing_marker (nfkd lower : str -> str) (word : pyobj) :
  contains Greek.rough_breathing (decomposed nfkd lower word) = true ->
  (exists rest, normalize nfkd lower word = lit "h" ++ rest)
  /\ contains Greek.rough_breathing (normalize nfkd lower word) = false
  /\ (Forall (fun c => ~ greek_lower c) (decomposed nfkd lower word) ->
      normalize nfkd lower word = lit "h"
      /\ sounds_per_word nfkd lower word
         = Ok {[ lit "h" := 1; lit "_h" := 1 ]}).
Proof.
  intros Hb. split; [|split].
  - unfold normalize. rewrite Hb.
    change (lit "h" ++ ?x) with (104 :: x). rewrite apply_table_head.
    + by eexists.
    + vm_compute. by repeat constructor.
  - apply contains_false.
    eapply Forall_impl; [apply normalize_canonical|].
    apply canonical_char_not_breathing.
  - intros Hg.
    assert (Hn : normalize nfkd lower word = lit "h").
    { unfold normalize. rewrite Hb. unfold strip.
      by rewrite strip_with_all by by apply remove_diacritics_blank. }
    split; [exact Hn|]. unfold sounds_per_word. by rewrite Hn.
Qed.

Lemma rough_breathing_marker_witness :
  (exists rest,
      normalize unchanged unchanged (PyStr [Greek.rough_breathing])
      = lit "h" ++ rest)
  /\ contains Greek.rough_breathing
       (normalize unchanged unchanged (PyStr [Greek.rough_breathing])) = false
  /\ (Forall (fun c => ~ greek_lower c)
        (decomposed unchanged unchanged (PyStr [Greek.rough_breathing])) ->
      normalize unchanged unchanged (PyStr [Greek.rough_breathing]) = lit "h"
      /\ sounds_per_word unchanged unchanged (PyStr [Greek.rough_breathing])
         = Ok {[ lit "h" := 1; lit "_h" := 1 ]}).
Proof. apply rough_breathing_marker. reflexivity. Defined.

(** ** Degenerate input *)

(** C9: [sounds_per_word] returns a mapping for every input; an input that
    is not a string is treated as the empty word, and it, like every word
    whose canonical sound string is empty (no letter of the alphabet and no
    breathing mark in the decomposed text), gets the mapping without any
    key. *)
Theorem sounds_per_word_degenerate (nfkd lower : str -> str) :
  nfkd [] = [] -> lower [] = [] ->
  (forall word, exists p, sounds_per_word nfkd lower word = Ok p)
  /\ (forall word, (forall s, word <> PyStr s) ->
      sounds_per_word nfkd lower word = sounds_per_word nfkd lower (PyStr [])
      /\ normalize nfkd lower word = []
      /\ sounds_per_word nfkd lower word = Ok ∅)
  /\ (forall word, normalize nfkd lower word = [] ->
      sounds_per_word nfkd lower word = Ok ∅)
  /\ (forall word,
      contains Greek.rough_breathing (decomposed nfkd lower word) = false ->
      Forall (fun c => ~ greek_lower c) (decomposed nfkd lower word) ->
      normalize nfkd lower word = []).
Proof.
  intros Hn Hl.
  assert (Hempty : forall word, normalize nfkd lower word = [] ->
                     sounds_per_word nfkd lower word = Ok ∅).
  { intros word E. unfold sounds_per_word. by rewrite E. }
  assert (Hcoerce : forall word, (forall s, word <> PyStr s) ->
                      normalize nfkd lower word = []).
  { intros word Hw. destruct word as [s| |]; [by destruct (Hw s)| |].
    all: unfold normalize, decomposed; rewrite Hn, Hl; reflexivity. }
  split; [|split; [|split]].
  - intros word. unfold sounds_per_word.
    destruct (normalize nfkd lower word) as [|c s]; [by eexists|].
    rewrite tally_cons. by eexists.
  - intros word Hw. split; [|split; [|apply Hempty]]; try by apply Hcoerce.
    destruct word as [s| |]; [by destruct (Hw s) | done | done].
  - exact Hempty.
  - intros word Hb Hg. unfold normalize. rewrite Hb. unfold strip.
    by rewrite strip_with_all by by apply remove_diacritics_blank.
Qed.

Lemma sounds_per_word_degenerate_witness :
  (forall word, exists p, sounds_per_word unchanged unchanged word = Ok p)
  /\ (forall word, (forall s, word <> PyStr s) ->
      sounds_per_word unchanged unchanged word
      = sounds_per_word unchanged unchanged (PyStr [])
      /\ normalize unchanged unchanged word = []
      /\ sounds_per_word unchanged unchanged word = Ok ∅)
  /\ (forall word, normalize unchanged unchanged word = [] ->
      sounds_per_word unchanged unchanged word = Ok ∅)
  /\ (forall word,
      contains Greek.rough_breathing (decomposed unchanged unchanged word)
      = false ->
      Forall (fun c => ~ greek_lower c) (decomposed unchanged unchanged word) ->
      normalize unchanged unchanged word = []).
Proof. apply sounds_per_word_degenerate; reflexivity. Defined.

Example sounds_per_word_none :
  sounds_per_word unchanged unchanged PyNone = Ok ∅.
Proof. reflexivity. Qed.

Example sounds_per_word_numeral :
  sounds_per_word unchanged unchanged (PyStr (lit "42.")) = Ok ∅.
Proof. reflexivity. Qed.

(** ** Order of the replacement table *)

Lemma apply_table_app (t1 t2 : odict) (s : str) :
  apply_table (t1 ++ t2) s = apply_table t2 (apply_table t1 s).
Proof. unfold apply_table. apply fold_left_app. Qed.

Lemma re_sub_single (a b : Z) (s : str) :
  re_sub [a] [b] s = map (fun c => if c =? a then b else c) s.
Proof.
  unfold re_sub. induction s as [|c s IH]; simpl; [done|].
  rewrite andb_true_r, Z.eqb_sym.
  destruct (c =? a); simpl; by rewrite IH.
Qed.

Lemma apply_one_time (s : str) : apply_table one_time s = map merge_char s.
Proof.
  unfold apply_table, one_time. simpl. rewrite !re_sub_single, !map_map.
  apply map_ext. intros c. unfold merge_char, Greek.final_sigma, Greek.sigma,
    Greek.theta, Greek.tau, Greek.chi, Greek.kappa, Greek.phi, Greek.pi.
  destruct (Z.eqb_spec c 962) as [->|?]; [reflexivity|].
  destruct (Z.eqb_spec c 952) as [->|?]; [reflexivity|].
  destruct (Z.eqb_spec c 967) as [->|?]; [reflexivity|].
  destruct (Z.eqb_spec c 966) as [->|?]; [reflexivity|].
  reflexivity.
Qed.

Lemma starts_with_map (g : Z -> Z) (k s : str) :
  Forall (fun x => forall c, (x =? g c) = (x =? c)) k ->
  starts_with k (map g s) = starts_with k s.
Proof.
  intros Hk. revert s. induction Hk as [|x k Hx Hk IH]; intros s; [done|].
  destruct s as [|c s]; simpl; [done|]. by rewrite Hx, IH.
Qed.

Lemma re_sub_from_map (g : Z -> Z) (k v s : str) (n : nat) :
  Forall (fun x => forall c, (x =? g c) = (x =? c)) k ->
  map g v = v ->
  map g (re_sub_from k v s n) = re_sub_from k v (map g s) n.
Proof.
  intros Hk Hv. revert n. induction s as [|c s IH]; intros n; [done|].
  cbn [re_sub_from map]. destruct n as [|n]; [|apply IH].
  change (g c :: map g s) with (map g (c :: s)).
  rewrite starts_with_map by done.
  destruct (starts_with k (c :: s)).
  - by rewrite map_app, Hv, IH.
  - cbn [map]. by rewrite IH.
Qed.

Lemma apply_table_map (g : Z -> Z) (table : odict) (s : str) :
  Forall (fun kv =>
            Forall (fun x => forall c, (x =? g c) = (x =? c)) (fst kv)
            /\ map g (snd kv) = snd kv) table ->
  map g (apply_table table s) = apply_table table (map g s).
Proof.
  unfold apply_table. intros Ht. revert s.
  induction Ht as [|kv table [Hk Hv] Ht IH]; intros s; simpl; [done|].
  rewrite IH. f_equal. by apply re_sub_from_map.
Qed.

Lemma merge_char_keeps (x : Z) :
  x <> Greek.final_sigma -> x <> Greek.theta -> x <> Greek.chi ->
  x <> Greek.phi -> x <> Greek.sigma -> x <> Greek.tau ->
  x <> Greek.kappa -> x <> Greek.pi ->
  forall c, (x =? merge_char c) = (x =? c).
Proof.
  unfold merge_char, Greek.final_sigma, Greek.sigma, Greek.theta, Greek.tau,
    Greek.chi, Greek.kappa, Greek.phi, Greek.pi. intros ? ? ? ? ? ? ? ? c.
  destruct (Z.eqb_spec c 962) as [->|?];
    [destruct (Z.eqb_spec x 963), (Z.eqb_spec x 962); (reflexivity || lia)|].
  destruct (Z.eqb_spec c 952) as [->|?];
    [destruct (Z.eqb_spec x 964), (Z.eqb_spec x 952); (reflexivity || lia)|].
  destruct (Z.eqb_spec c 967) as [->|?];
    [destruct (Z.eqb_spec x 954), (Z.eqb_spec x 967); (reflexivity || lia)|].
  destruct (Z.eqb_spec c 966) as [->|?];
    [destruct (Z.eqb_spec x 960), (Z.eqb_spec x 966); (reflexivity || lia)|].
  reflexivity.
Qed.

Lemma reversible_ignores_mergers (s : str) :
  map merge_char (apply_table reversible s)
  = apply_table reversible (map merge_char s).
Proof.
  apply apply_table_map. unfold reversible.
  repeat constructor; try (apply merge_char_keeps; vm_compute; discriminate).
Qed.

Lemma replacements_order : replacements = reversible ++ one_time.
Proof. reflexivity. Qed.

(** C4: the substitution loop goes through the table in insertion order,
    one [re.sub] per entry, each on the result of the one before: the seven
    digraph rules first, in the order of [reversible], and the four
    single-letter mergers after them. No merger touches a digraph match: a
    digraph starts at a position after the mergers exactly when it did
    before them, so running the mergers first would give the same string.
    The order among the digraph rules does matter: alpha, upsilon, iota
    becomes alpha and the surrogate of upsilon-iota, where the table read
    backwards gives the surrogate of alpha-upsilon and iota. *)
Theorem digraphs_before_mergers :
  replacements = reversible ++ one_time
  /\ length reversible = 7%nat /\ length one_time = 4%nat
  /\ Forall (fun kv => length (fst kv) = 2%nat) reversible
  /\ Forall (fun kv => length (fst kv) = 1%nat) one_time
  /\ (forall (i j : nat) (ri rj : str * str),
        replacements !! i = Some ri -> replacements !! j = Some rj ->
        length (fst ri) = 2%nat -> length (fst rj) = 1%nat -> (i < j)%nat)
  /\ (forall s, apply_table [] s = s)
  /\ (forall (k v : str) (table : odict) (s : str),
        apply_table ((k, v) :: table) s = apply_table table (re_sub k v s))
  /\ (forall s,
        apply_table replacements s
        = re_sub [Greek.phi] [Greek.pi]
           (re_sub [Greek.chi] [Greek.kappa]
             (re_sub [Greek.theta] [Greek.tau]
               (re_sub [Greek.final_sigma] [Greek.sigma]
                 (re_sub [Greek.omicron; Greek.upsilon] (lit "U")
                   (re_sub [Greek.epsilon; Greek.upsilon] (lit "u")
                     (re_sub [Greek.alpha; Greek.upsilon] [Greek.cap_alpha]
                       (re_sub [Greek.upsilon; Greek.iota] (lit "Y")
                         (re_sub [Greek.epsilon; Greek.iota] (lit "e")
                           (re_sub [Greek.alpha; Greek.iota] [Greek.cap_iota]
                             (re_sub [Greek.omicron; Greek.iota] (lit "O")
                                s)))))))))))
  /\ (forall (nfkd lower : str -> str) (word : pyobj),
        normalize nfkd lower word
        = apply_table one_time
            (apply_table reversible
               ((if contains Greek.rough_breathing (decomposed nfkd lower word)
                 then lit "h" else [])
                ++ strip (remove_diacritics (decomposed nfkd lower word)))))
  /\ (forall s,
        apply_table replacements s
        = apply_table one_time (apply_table reversible s))
  /\ (forall (kv : str * str) (s : str),
        In kv reversible ->
        starts_with (fst kv) (map merge_char s) = starts_with (fst kv) s)
  /\ (forall s,
        apply_table (one_time ++ reversible) s = apply_table replacements s)
  /\ apply_table replacements [Greek.alpha; Greek.upsilon; Greek.iota]
     = Greek.alpha :: lit "Y"
  /\ apply_table (rev replacements) [Greek.alpha; Greek.upsilon; Greek.iota]
     = [Greek.cap_alpha; Greek.iota]
  /\ normalize unchanged unchanged
       (PyStr [Greek.theta; Greek.omicron; Greek.upsilon; Greek.final_sigma])
     = Greek.tau :: lit "U" ++ [Greek.sigma].
Proof.
  assert (H2 : Forall (fun kv : str * str => length (fst kv) = 2%nat)
                      reversible) by (by repeat constructor).
  assert (H1 : Forall (fun kv : str * str => length (fst kv) = 1%nat)
                      one_time) by (by repeat constructor).
  do 3 (split; [reflexivity|]).
  split; [exact H2|]. split; [exact H1|].
  split; [|split; [|split; [|split; [|split; [|split; [|split; [|split]]]]]]].
  - intros i j ri rj Hi Hj Li Lj. rewrite replacements_order in Hi, Hj.
    apply lookup_app_Some in Hi as [Hi|[_ Hi]].
    2:{ rewrite Forall_lookup in H1. specialize (H1 _ _ Hi). lia. }
    apply lookup_app_Some in Hj as [Hj|[Hj _]].
    1:{ rewrite Forall_lookup in H2. specialize (H2 _ _ Hj). lia. }
    apply lookup_lt_Some in Hi. lia.
  - reflexivity.
  - reflexivity.
  - reflexivity.
  - intros nfkd lower word. unfold normalize.
    rewrite replacements_order. apply apply_table_app.
  - intros s. rewrite replacements_order. apply apply_table_app.
  - intros kv s Hin. apply starts_with_map.
    assert (F : Forall (fun kv : str * str =>
                          Forall (fun x => forall c,
                                      (x =? merge_char c) = (x =? c))
                                 (fst kv)) reversible).
    { unfold reversible.
      repeat constructor; apply merge_char_keeps; vm_compute; discriminate. }
    rewrite Forall_forall in F. apply F. by apply list_elem_of_In.
  - intros s. rewrite replacements_order, !apply_table_app, !apply_one_time.
    symmetry. apply reversible_ignores_mergers.
  - by vm_compute.
Qed.

(** ** Text that is already normalized *)

Lemma remove_diacritics_id (s : str) :
  Forall greek_lower s -> remove_diacritics s = s.
Proof.
  unfold remove_diacritics.
  induction 1 as [|c s Hc Hs IH]; [done|].
  rewrite filter_cons_True, IH; [done|].
  unfold greek_or_space, greek_lower in *. lia.
Qed.

Lemma greek_lower_not_space (s : str) :
  Forall greek_lower s -> Forall (fun c => is_space c = false) s.
Proof.
  intros Hs. eapply Forall_impl; [exact Hs|]. intros c Hc.
  unfold greek_lower, Greek.alpha, Greek.omega in Hc. unfold is_space. lia.
Qed.

Lemma greek_lower_no_breathing (s : str) :
  Forall greek_lower s -> contains Greek.rough_breathing s = false.
Proof.
  intros Hs. apply contains_false. eapply Forall_impl; [exact Hs|].
  intros c Hc ->. unfold greek_lower, Greek.alpha, Greek.omega,
    Greek.rough_breathing in Hc. lia.
Qed.

(** C3, as the script has it: a string of lowercase letters of the
    alphabet that decomposition and lower-casing leave alone is normalized
    to itself with the digraphs substituted and then the four permanent
    changes applied; the tally of a canonical string is a function of that
    string, so two tallies of it are the same profile. *)
Theorem normalize_already_normalized (nfkd lower : str -> str) (s : str) :
  nfkd s = s -> lower s = s -> Forall greek_lower s ->
  normalize nfkd lower (PyStr s)
  = apply_table one_time (apply_table reversible s)
  /\ normalize nfkd lower (PyStr s)
     = map merge_char (apply_table reversible s)
  /\ (forall p q,
        tally (normalize nfkd lower (PyStr s)) = p ->
        tally (normalize nfkd lower (PyStr s)) = q -> p = q).
Proof.
  intros Hn Hl Hs.
  assert (E : normalize nfkd lower (PyStr s)
              = apply_table one_time (apply_table reversible s)).
  { unfold normalize, decomposed. rewrite Hn, Hl. unfold strip.
    rewrite (strip_with_none _ s) by by apply greek_lower_not_space.
    rewrite greek_lower_no_breathing by done.
    rewrite remove_diacritics_id by done.
    rewrite (strip_with_none _ s) by by apply greek_lower_not_space.
    rewrite replacements_order. apply apply_table_app. }
  split; [exact E|]. split; [by rewrite E, apply_one_time|].
  intros p q <- <-. reflexivity.
Qed.

Lemma normalize_already_normalized_witness :
  normalize unchanged unchanged
    (PyStr [Greek.theta; Greek.epsilon; Greek.omicron; Greek.iota])
  = apply_table one_time
      (apply_table reversible
         [Greek.theta; Greek.epsilon; Greek.omicron; Greek.iota])
  /\ normalize unchanged unchanged
       (PyStr [Greek.theta; Greek.epsilon; Greek.omicron; Greek.iota])
     = map merge_char
         (apply_table reversible
            [Greek.theta; Greek.epsilon; Greek.omicron; Greek.iota])
  /\ (forall p q,
        tally (normalize unchanged unchanged
                 (PyStr [Greek.theta; Greek.epsilon; Greek.omicron;
                         Greek.iota])) = p ->
        tally (normalize unchanged unchanged
                 (PyStr [Greek.theta; Greek.epsilon; Greek.omicron;
                         Greek.iota])) = q -> p = q).
Proof.
  apply normalize_already_normalized; [reflexivity | reflexivity |].
  unfold greek_lower. repeat constructor; vm_compute; discriminate.
Defined.

(** The letter theta is a lowercase letter of the alphabet without
    diacritics and holds no digraph, yet it is normalized to tau. *)
Lemma normalize_theta_changed :
  Forall greek_lower [Greek.theta]
  /\ unchanged [Greek.theta] = [Greek.theta]
  /\ apply_table reversible [Greek.theta] = [Greek.theta]
  /\ normalize unchanged unchanged (PyStr [Greek.theta]) = [Greek.tau]
  /\ normalize unchanged unchanged (PyStr [Greek.theta])
     <> apply_table reversible [Greek.theta].
Proof.
  split; [|repeat split; try reflexivity; vm_compute; discriminate].
  unfold greek_lower. repeat constructor; vm_compute; discriminate.
Qed.

(** ** Locus keys: the digits of a number *)









Lemma fold_left_values_nonneg (vs : list Z) (acc : Z) :
  Forall (fun v => 0 <= v <= 9) vs -> 0 <= acc ->
  0 <= fold_left (fun a v => 10 * a + v) vs acc.
Proof.
  intros H. revert acc. induction H as [|v vs Hv H IH]; intros acc Ha; [done|].
  simpl. apply IH. lia.
Qed.

Lemma format_d_error (width : nat) (n : Z) (e : exn) :
  format_d width n = Raise e -> e = ValueError.
Proof.
  unfold format_d.
  destruct (Z.of_nat (length _) <=? int_max_str_digits); congruence.
Qed.

(** ** Locus keys: parsing the line *)

Section LocusFacts.
Variable decimal : Z -> option Z.
Hypothesis decimal_ascii : forall c, 0 <= c < 128 -> decimal c = ascii_decimal c.

Lemma decimal_digit (c : Z) : ascii_digit c -> decimal c = Some (c - 48).
Proof.
  unfold ascii_digit. intros Hc. rewrite decimal_ascii by lia.
  unfold ascii_decimal.
  by rewrite (proj2 (Z.leb_le 48 c)), (proj2 (Z.leb_le c 57)) by lia.
Qed.

Lemma lower_az_not_decimal (c : Z) :
  is_lower_az c = true -> is_decimal decimal c = false.
Proof.
  unfold is_lower_az, is_decimal. intros Hc. rewrite decimal_ascii by lia.
  unfold ascii_decimal. by rewrite (proj2 (Z.leb_gt c 57)), andb_false_r by lia.
Qed.

(** No decimal digit is a letter of [[a-z]], a sign or the underscore. *)
Lemma decimal_not_ascii (c : Z) :
  is_decimal decimal c = true ->
  is_lower_az c = false /\ c <> 95 /\ c <> 43 /\ c <> 45.
Proof.
  unfold is_decimal, is_lower_az. intros Hc.
  destruct (Z.le_gt_cases 0 c) as [H0|H0]; [|lia].
  destruct (Z.lt_ge_cases c 128) as [H1|H1]; [|lia].
  rewrite decimal_ascii in Hc by lia. unfold ascii_decimal in Hc.
  destruct ((48 <=? c) && (c <=? 57)) eqn:E; [lia | done].
Qed.

Lemma digit_decimal (c : Z) : ascii_digit c -> is_decimal decimal c = true.
Proof. intros Hc. unfold is_decimal. by rewrite decimal_digit. Qed.

Lemma digits_decimal (ds : str) :
  Forall ascii_digit ds -> Forall (fun c => is_decimal decimal c = true) ds.
Proof. intros H. eapply Forall_impl; [exact H|]. apply digit_decimal. Qed.

Lemma digits_not_space (ds : str) :
  Forall ascii_digit ds -> Forall (fun c => is_int_space c = false) ds.
Proof.
  intros H. eapply Forall_impl; [exact H|]. intros c Hc.
  unfold ascii_digit in Hc. unfold is_int_space, is_space. lia.
Qed.

Lemma digits_value_decimal (ds : str) :
  Forall ascii_digit ds -> decimal_value decimal ds = digits_value ds.
Proof.
  unfold decimal_value, digits_value. intros H.
  assert (G : forall acc,
             fold_left (fun acc c => 10 * acc + default 0 (decimal c)) ds acc
             = fold_left (fun acc c => 10 * acc + (c - 48)) ds acc);
    [|apply G].
  induction H as [|d ds Hd H IH]; intros acc; [done|].
  cbn [fold_left]. rewrite (decimal_digit d Hd). apply IH.
Qed.

Lemma digit_not_lower_az (c : Z) : ascii_digit c -> is_lower_az c = false.
Proof. unfold ascii_digit, is_lower_az. lia. Qed.

Lemma digit_run_decimals (ds tail : str) :
  Forall (fun c => is_decimal decimal c = true) ds ->
  match tail with c :: _ => is_decimal decimal c = false | [] => True end ->
  digit_run decimal (ds ++ tail) = length ds.
Proof.
  intros Hds Ht. induction Hds as [|d ds Hd Hds IH]; simpl.
  - destruct tail as [|c tail]; simpl; [done | by rewrite Ht].
  - by rewrite Hd, IH.
Qed.

Lemma split_suffix_miss (line : str) (k : nat) :
  (forall i c, line !! i = Some c -> is_lower_az c = false) ->
  split_suffix line k = None.
Proof.
  intros H. induction k as [|k IH]; simpl; [done|].
  destruct (line !! S k) as [c|] eqn:E; [|exact IH].
  by rewrite (H _ _ E).
Qed.

(** Decimal digits, one lowercase letter, anything after: the groups are
    the digits and the letter. *)
Lemma re_match_suffix_decimals (ds rest : str) (c : Z) :
  ds <> [] -> Forall (fun c => is_decimal decimal c = true) ds ->
  is_lower_az c = true ->
  re_match_suffix decimal (ds ++ c :: rest) = Some (ds, [c]).
Proof.
  intros Hne Hds Hc. unfold re_match_suffix.
  rewrite digit_run_decimals by (done || by apply lower_az_not_decimal).
  destruct ds as [|d ds]; [done|].
  change (length (d :: ds)) with (S (length ds)). cbn [split_suffix].
  change (S (length ds)) with (length (d :: ds)).
  rewrite list_lookup_middle by done. rewrite Hc.
  by rewrite take_app_length.
Qed.

Lemma re_match_suffix_letter (ds rest : str) (c : Z) :
  ds <> [] -> Forall ascii_digit ds -> is_lower_az c = true ->
  re_match_suffix decimal (ds ++ c :: rest) = Some (ds, [c]).
Proof.
  intros Hne Hds Hc. apply re_match_suffix_decimals; try done.
  by apply digits_decimal.
Qed.

(** Digits alone do not match. *)
Lemma re_match_suffix_bare (ds : str) :
  Forall ascii_digit ds -> re_match_suffix decimal ds = None.
Proof.
  intros Hds. unfold re_match_suffix. apply split_suffix_miss.
  intros i c Hi. apply digit_not_lower_az.
  rewrite Forall_lookup in Hds. by apply (Hds i).
Qed.

Lemma int_digits_decimals (ds : str) (acc : Z) :
  Forall (fun c => is_decimal decimal c = true) ds ->
  int_digits decimal acc false ds
  = Some (fold_left (fun acc c => 10 * acc + default 0 (decimal c)) ds acc).
Proof.
  intros Hds. revert acc. induction Hds as [|d ds Hd Hds IH]; intros acc.
  - reflexivity.
  - cbn [int_digits fold_left].
    destruct (decimal_not_ascii d Hd) as (_ & H95 & _).
    rewrite (proj2 (Z.eqb_neq d 95)) by done.
    unfold is_decimal in Hd. destruct (decimal d) as [v|]; [|done].
    apply IH.
Qed.

Lemma digit_count_decimals (ds : str) :
  Forall (fun c => is_decimal decimal c = true) ds ->
  digit_count ds = length ds.
Proof.
  unfold digit_count. induction 1 as [|d ds Hd Hds IH]; [done|].
  destruct (decimal_not_ascii d Hd) as (_ & H95 & _).
  rewrite filter_cons_True by done. cbn [length]. by rewrite IH.
Qed.

(** [int()] on a run of decimal digits: its value when the run is within
    the limit, an error when it is longer. *)
Lemma int_str_decimals (ds : str) :
  ds <> [] -> Forall (fun c => is_decimal decimal c = true) ds ->
  Forall (fun c => is_int_space c = false) ds ->
  int_str decimal ds
  = if Z.of_nat (length ds) <=? int_max_str_digits
    then Ok (decimal_value decimal ds) else Raise ValueError.
Proof.
  intros Hne Hds Hsp. unfold int_str.
  rewrite strip_with_none by done.
  destruct ds as [|d ds]; [done|].
  pose proof (digit_count_decimals _ Hds) as Hcount.
  apply Forall_cons in Hds as [Hd Hds].
  destruct (decimal_not_ascii d Hd) as (_ & _ & H43 & H45).
  replace (match d :: ds with
           | 43 :: r => (1, r)
           | 45 :: r => (-1, r)
           | _ => (1, d :: ds)
           end) with (1, d :: ds).
  2:{ destruct d as [|q|q]; try done.
      do 6 (destruct q as [q|q|]; try done). }
  rewrite Hcount. unfold decimal_value. cbn [fold_left].
  unfold is_decimal in Hd. destruct (decimal d) as [v|] eqn:Ev; [|done].
  rewrite int_digits_decimals by done. cbn [default].
  replace (10 * 0 + v) with v by lia.
  destruct (_ <=? int_max_str_digits); [|done].
  f_equal. apply Z.mul_1_l.
Qed.

Lemma int_str_digits (ds : str) :
  ds <> [] -> Forall ascii_digit ds ->
  Z.of_nat (length ds) <= int_max_str_digits ->
  int_str decimal ds = Ok (digits_value ds).
Proof.
  intros Hne Hds Hlen.
  rewrite int_str_decimals
    by (done || by apply digits_decimal || by apply digits_not_space).
  rewrite (proj2 (Z.leb_le _ _) Hlen). by rewrite digits_value_decimal.
Qed.

Lemma int_str_error (s : str) (e : exn) :
  int_str decimal s = Raise e -> e = ValueError.
Proof.
  unfold int_str.
  destruct (match strip_with is_int_space s with
            | 43 :: r => (1, r)
            | 45 :: r => (-1, r)
            | _ => (1, strip_with is_int_space s)
            end) as [sign body].
  destruct body as [|c r]; [congruence|].
  destruct (decimal c) as [d|]; [|congruence].
  destruct (int_digits decimal d false r); [|congruence].
  destruct (_ <=? int_max_str_digits); congruence.
Qed.


End LocusFacts.

(** ** Locus keys: fixed width and order *)

Lemma format_d_2 (b : Z) :
  0 <= b <= 99 -> format_d 2 b = Ok [48 + b / 10; 48 + b mod 10].
Proof.
  intros Hb.
  assert (H : forallb (fun k =>
                match format_d 2 (Z.of_nat k) with
                | Ok field =>
                    bool_decide (field = [48 + Z.of_nat k / 10;
                                          48 + Z.of_nat k mod 10])
                | Raise _ => false
                end)
                (seq 0 100) = true) by (vm_compute; reflexivity).
  rewrite forallb_forall in H. specialize (H (Z.to_nat b)).
  rewrite Z2Nat.id in H by lia.
  assert (Hin : In (Z.to_nat b) (seq 0 100)) by (apply in_seq; lia).
  apply H in Hin. destruct (format_d 2 b) as [field|e]; [|done].
  f_equal. by apply bool_decide_eq_true in Hin.
Qed.

Lemma format_d_3 (n : Z) :
  0 <= n <= 999 ->
  format_d 3 n = Ok [48 + n / 100; 48 + (n / 10) mod 10; 48 + n mod 10].
Proof.
  intros Hn.
  assert (H : forallb (fun k =>
                match format_d 3 (Z.of_nat k) with
                | Ok field =>
                    bool_decide (field = [48 + Z.of_nat k / 100;
                                          48 + (Z.of_nat k / 10) mod 10;
                                          48 + Z.of_nat k mod 10])
                | Raise _ => false
                end)
                (seq 0 1000) = true) by (vm_compute; reflexivity).
  rewrite forallb_forall in H. specialize (H (Z.to_nat n)).
  rewrite Z2Nat.id in H by lia.
  assert (Hin : In (Z.to_nat n) (seq 0 1000)) by (apply in_seq; lia).
  apply H in Hin. destruct (format_d 3 n) as [field|e]; [|done].
  f_equal. by apply bool_decide_eq_true in Hin.
Qed.

Lemma str_compare_app (a b x y : str) :
  length a = length b ->
  str_compare (a ++ x) (b ++ y)
  = match str_compare a b with Eq => str_compare x y | c => c end.
Proof.
  revert b. induction a as [|c a IH]; intros [|d b] Hl; try done.
  simpl in *. destruct (c ?= d); [apply IH; lia | done | done].
Qed.

Lemma str_compare_2 (n m : Z) :
  0 <= n <= 99 -> 0 <= m <= 99 ->
  str_compare [48 + n / 10; 48 + n mod 10] [48 + m / 10; 48 + m mod 10]
  = (n ?= m).
Proof.
  intros Hn Hm. simpl.
  destruct (Z.compare_spec (48 + n / 10) (48 + m / 10));
    destruct (Z.compare_spec (48 + n mod 10) (48 + m mod 10));
    destruct (Z.compare_spec n m); try reflexivity; exfalso;
    Z.div_mod_to_equations; lia.
Qed.

Lemma str_compare_3 (n m : Z) :
  0 <= n <= 999 -> 0 <= m <= 999 ->
  str_compare [48 + n / 100; 48 + (n / 10) mod 10; 48 + n mod 10]
              [48 + m / 100; 48 + (m / 10) mod 10; 48 + m mod 10]
  = (n ?= m).
Proof.
  intros Hn Hm. simpl.
  destruct (Z.compare_spec (48 + n / 100) (48 + m / 100));
    destruct (Z.compare_spec (48 + (n / 10) mod 10) (48 + (m / 10) mod 10));
    destruct (Z.compare_spec (48 + n mod 10) (48 + m mod 10));
    destruct (Z.compare_spec n m); try reflexivity; exfalso;
    Z.div_mod_to_equations; lia.
Qed.

Lemma str_compare_suffix (a b : locus) :
  str_compare (suffix_str a) (suffix_str b)
  = suffix_compare (loc_suffix a) (loc_suffix b).
Proof.
  unfold suffix_str, suffix_compare.
  destruct (loc_suffix a) as [x|], (loc_suffix b) as [y|]; simpl; try done.
  by destruct (x ?= y).
Qed.

(** String comparison of two keys is document order of their loci. *)
Lemma locus_key_order (a b : locus) :
  locus_in_range a -> locus_in_range b ->
  str_compare (locus_key a) (locus_key b) = locus_compare a b.
Proof.
  intros (Hba & Hla & _) (Hbb & Hlb & _). unfold locus_key, locus_compare.
  change ([?b1; ?b2; 95; ?l1; ?l2; ?l3] ++ ?x)
    with ([b1; b2] ++ [95] ++ [l1; l2; l3] ++ x).
  rewrite str_compare_app, str_compare_2 by done.
  destruct (loc_book a ?= loc_book b); try done.
  rewrite str_compare_app by done. cbn [str_compare Z.compare Pos.compare
                                       Pos.compare_cont].
  rewrite str_compare_app, str_compare_3 by done.
  destruct (loc_line a ?= loc_line b); try done.
  apply str_compare_suffix.
Qed.


Lemma ascii_digits_check (ds : str) :
  forallb (fun c => (48 <=? c) && (c <=? 57)) ds = true ->
  Forall ascii_digit ds.
Proof.
  intros H. apply Forall_forall. intros c Hc.
  rewrite forallb_forall in H. apply list_elem_of_In in Hc.
  specialize (H c Hc). unfold ascii_digit. lia.
Qed.

Lemma str_of_nat_digits (n : Z) :
  0 <= n <= 999 ->
  str_of_nat n <> [] /\ Forall ascii_digit (str_of_nat n)
  /\ digits_value (str_of_nat n) = n.
Proof.
  intros Hn.
  assert (H : forallb (fun k =>
                let ds := str_of_nat (Z.of_nat k) in
                negb (bool_decide (ds = []))
                && forallb (fun c => (48 <=? c) && (c <=? 57)) ds
                && (digits_value ds =? Z.of_nat k))
                (seq 0 1000) = true) by (vm_compute; reflexivity).
  rewrite forallb_forall in H.
  assert (Hin : In (Z.to_nat n) (seq 0 1000)) by (apply in_seq; lia).
  apply H in Hin. rewrite Z2Nat.id in Hin by lia. cbv zeta in Hin.
  apply andb_true_iff in Hin as [Hin Hv].
  apply andb_true_iff in Hin as [Hne Hds].
  split; [|split].
  - intros E. rewrite E in Hne. done.
  - by apply ascii_digits_check.
  - by apply Z.eqb_eq.
Qed.

Lemma str_of_nat_length (n : Z) :
  0 <= n <= 999 -> Z.of_nat (length (str_of_nat n)) <= int_max_str_digits.
Proof.
  intros Hn.
  assert (H : forallb (fun k =>
                Z.of_nat (length (str_of_nat (Z.of_nat k))) <=? 3)
                (seq 0 1000) = true) by (vm_compute; reflexivity).
  rewrite forallb_forall in H.
  assert (Hin : In (Z.to_nat n) (seq 0 1000)) by (apply in_seq; lia).
  apply H in Hin. rewrite Z2Nat.id in Hin by lia.
  unfold int_max_str_digits. lia.
Qed.

Section CreateIdFacts.
Variable decimal : Z -> option Z.
Hypothesis decimal_ascii : forall c, 0 <= c < 128 -> decimal c = ascii_decimal c.


Lemma create_id_letter (book : pyobj) (b : Z) (ds rest : str) (c : Z) :
  int_ decimal book = Ok b ->
  ds <> [] -> Forall ascii_digit ds ->
  Z.of_nat (length ds) <= int_max_str_digits -> is_lower_az c = true ->
  create_id decimal book (ds ++ c :: rest)
  = (book_field ← format_d 2 b;
     line_field ← format_d 3 (digits_value ds);
     Ok (book_field ++ lit "_" ++ line_field ++ [c])).
Proof.
  intros Hb Hne Hds Hlen Hc. unfold create_id.
  rewrite re_match_suffix_letter, Hb by done. cbn [mbind result_bind].
  destruct (format_d 2 b) as [book_field|e]; [|done].
  by rewrite int_str_digits.
Qed.

Lemma create_id_bare (book : pyobj) (b : Z) (ds : str) :
  int_ decimal book = Ok b -> ds <> [] -> Forall ascii_digit ds ->
  Z.of_nat (length ds) <= int_max_str_digits ->
  create_id decimal book ds
  = (book_field ← format_d 2 b;
     line_field ← format_d 3 (digits_value ds);
     Ok (book_field ++ lit "_" ++ line_field ++ [])).
Proof.
  intros Hb Hne Hds Hlen. unfold create_id.
  rewrite re_match_suffix_bare, Hb by done. cbn [mbind result_bind].
  destruct (format_d 2 b) as [book_field|e]; [|done].
  by rewrite int_str_digits.
Qed.

Lemma create_id_locus (book : pyobj) (ds : str) (l : locus) :
  int_ decimal book = Ok (loc_book l) ->
  ds <> [] -> Forall ascii_digit ds ->
  Z.of_nat (length ds) <= int_max_str_digits ->
  digits_value ds = loc_line l ->
  locus_in_range l ->
  create_id decimal book (ds ++ suffix_str l) = Ok (locus_key l).
Proof.
  intros Hb Hne Hds Hlen Hv (Hrb & Hrl & Hrs).
  assert (E : (book_field ← format_d 2 (loc_book l);
               line_field ← format_d 3 (digits_value ds);
               Ok (book_field ++ lit "_" ++ line_field ++ suffix_str l))
              = Ok (locus_key l)).
  { rewrite Hv, format_d_2, format_d_3 by done. reflexivity. }
  rewrite <- E. unfold suffix_str in *.
  destruct (loc_suffix l) as [c|].
  - by apply create_id_letter.
  - rewrite app_nil_r. by apply create_id_bare.
Qed.

(** The key of a locus in range, from its book number and its line. *)
Lemma create_id_locus_line (l : locus) :
  locus_in_range l ->
  create_id decimal (PyInt (loc_book l)) (locus_line l) = Ok (locus_key l).
Proof.
  intros Hl. pose proof Hl as (_ & Hline & _).
  destruct (str_of_nat_digits _ Hline) as (Hne & Hds & Hv).
  apply create_id_locus; try done. by apply str_of_nat_length.
Qed.

End CreateIdFacts.

(** C6: for a book number in 0-99 and a line made of a number in 0-999,
    with or without one lowercase letter after it, [create_id] returns the
    key of fixed width (two digits, underscore, three digits, the letter);
    comparing two such keys as strings is comparing their loci in document
    order. The number may be written with leading zeros, up to the number
    of digits [int()] accepts. *)
Theorem create_id_fixed_width_sortable (decimal : Z -> option Z) :
  (forall c, 0 <= c < 128 -> decimal c = ascii_decimal c) ->
  (forall (book : pyobj) (ds : str) (l : locus),
      int_ decimal book = Ok (loc_book l) ->
      ds <> [] -> Forall ascii_digit ds ->
      Z.of_nat (length ds) <= int_max_str_digits ->
      digits_value ds = loc_line l ->
      locus_in_range l ->
      create_id decimal book (ds ++ suffix_str l) = Ok (locus_key l))
  /\ (forall l : locus,
        locus_in_range l ->
        create_id decimal (PyInt (loc_book l)) (locus_line l)
        = Ok (locus_key l))
  /\ create_id decimal (PyInt 1) (lit "7") = Ok (lit "01_007")
  /\ create_id decimal (PyInt 12) (lit "23b") = Ok (lit "12_023b")
  /\ (forall a b : locus,
        locus_in_range a -> locus_in_range b ->
        str_compare (locus_key a) (locus_key b) = locus_compare a b)
  /\ (exists k1 k2 k3 : str,
        create_id decimal (PyInt 1) (lit "7") = Ok k1
        /\ create_id decimal (PyInt 1) (lit "8") = Ok k2
        /\ create_id decimal (PyInt 2) (lit "1") = Ok k3
        /\ str_lt k1 k2 = true /\ str_lt k2 k3 = true).
Proof.
  intros Hd.
  assert (Hex : forall b sfx ds,
             ds <> [] -> Forall ascii_digit ds ->
             Z.of_nat (length ds) <= int_max_str_digits ->
             locus_in_range {| loc_book := b; loc_line := digits_value ds;
                               loc_suffix := sfx |} ->
             create_id decimal (PyInt b)
               (ds ++ suffix_str {| loc_book := b;
                                    loc_line := digits_value ds;
                                    loc_suffix := sfx |})
             = Ok (locus_key {| loc_book := b; loc_line := digits_value ds;
                                loc_suffix := sfx |})).
  { intros b sfx ds Hne Hds Hlen Hr.
    by apply (create_id_locus decimal Hd (PyInt b) ds
                {| loc_book := b; loc_line := digits_value ds;
                   loc_suffix := sfx |}). }
  split; [|split; [|split; [|split; [|split]]]].
  - intros book ds l. by apply create_id_locus.
  - by apply create_id_locus_line.
  - apply (Hex 1 None (lit "7"));
      [done | by apply ascii_digits_check | by vm_compute |].
    vm_compute. intuition discriminate.
  - apply (Hex 12 (Some 98) (lit "23"));
      [done | by apply ascii_digits_check | by vm_compute |].
    vm_compute. intuition discriminate.
  - apply locus_key_order.
  - exists (lit "01_007"), (lit "01_008"), (lit "02_001").
    split; [|split; [|split; [|by split]]].
    + apply (Hex 1 None (lit "7"));
        [done | by apply ascii_digits_check | by vm_compute |].
      vm_compute. intuition discriminate.
    + apply (Hex 1 None (lit "8"));
        [done | by apply ascii_digits_check | by vm_compute |].
      vm_compute. intuition discriminate.
    + apply (Hex 2 None (lit "1"));
        [done | by apply ascii_digits_check | by vm_compute |].
      vm_compute. intuition discriminate.
Qed.

Lemma create_id_fixed_width_sortable_witness :
  (forall (book : pyobj) (ds : str) (l : locus),
      int_ ascii_decimal book = Ok (loc_book l) ->
      ds <> [] -> Forall ascii_digit ds ->
      Z.of_nat (length ds) <= int_max_str_digits ->
      digits_value ds = loc_line l ->
      locus_in_range l ->
      create_id ascii_decimal book (ds ++ suffix_str l) = Ok (locus_key l))
  /\ (forall l : locus,
        locus_in_range l ->
        create_id ascii_decimal (PyInt (loc_book l)) (locus_line l)
        = Ok (locus_key l))
  /\ create_id ascii_decimal (PyInt 1) (lit "7") = Ok (lit "01_007")
  /\ create_id ascii_decimal (PyInt 12) (lit "23b") = Ok (lit "12_023b")
  /\ (forall a b : locus,
        locus_in_range a -> locus_in_range b ->
        str_compare (locus_key a) (locus_key b) = locus_compare a b)
  /\ (exists k1 k2 k3 : str,
        create_id ascii_decimal (PyInt 1) (lit "7") = Ok k1
        /\ create_id ascii_decimal (PyInt 1) (lit "8") = Ok k2
        /\ create_id ascii_decimal (PyInt 2) (lit "1") = Ok k3
        /\ str_lt k1 k2 = true /\ str_lt k2 k3 = true).
Proof. apply create_id_fixed_width_sortable. reflexivity. Defined.

(** A line of leading zeros beyond the limit of [int()], then a digit: the
    number is in range, and the call raises. *)
Example create_id_leading_zeros :
  digits_value (replicate 4300 48 ++ lit "7") = 7
  /\ create_id ascii_decimal (PyInt 1) (replicate 4300 48 ++ lit "7")
     = Raise ValueError
  /\ create_id ascii_decimal (PyInt 1) (replicate 4299 48 ++ lit "7")
     = Ok (lit "01_007").
Proof. by vm_compute. Qed.

(** ** Locus keys: malformed lines and trailing text *)

(** C8: when the line does not match digits-plus-letter and [int] cannot
    parse it, [create_id] returns no key; the error is a [ValueError]
    unless the book is [None], whose conversion fails first. *)
Theorem create_id_malformed_line
    (decimal : Z -> option Z) (book : pyobj) (line : str) :
  re_match_suffix decimal line = None ->
  (forall n, int_str decimal line <> Ok n) ->
  (exists e, create_id decimal book line = Raise e)
  /\ (book <> PyNone -> create_id decimal book line = Raise ValueError).
Proof.
  intros Hm Hi.
  assert (Hl : int_str decimal line = Raise ValueError).
  { destruct (int_str decimal line) as [n|e] eqn:E; [by destruct (Hi n)|].
    by rewrite (int_str_error decimal line e E). }
  assert (Hb : forall b,
             (book_field ← format_d 2 b;
              n ← int_str decimal line;
              line_field ← format_d 3 n;
              Ok (book_field ++ lit "_" ++ line_field ++ []))
             = Raise ValueError).
  { intros b. destruct (format_d 2 b) as [book_field|e] eqn:F.
    - cbn [mbind result_bind]. by rewrite Hl.
    - by rewrite (format_d_error _ _ _ F). }
  unfold create_id. rewrite Hm.
  destruct book as [s|z|]; cbn [int_].
  - destruct (int_str decimal s) as [b|e] eqn:E.
    + split; [exists ValueError | intros _]; exact (Hb b).
    + rewrite (int_str_error decimal s e E). split; [by eexists | done].
  - split; [exists ValueError | intros _]; exact (Hb z).
  - split; [by eexists | done].
Qed.

Lemma create_id_malformed_line_witness :
  (exists e, create_id ascii_decimal (PyStr (lit "3")) (lit "x7") = Raise e)
  /\ (PyStr (lit "3") <> PyNone ->
      create_id ascii_decimal (PyStr (lit "3")) (lit "x7") = Raise ValueError).
Proof.
  apply create_id_malformed_line; [reflexivity|].
  intros n. vm_compute. discriminate.
Defined.

Example create_id_none_book :
  create_id ascii_decimal PyNone (lit "x7") = Raise TypeError.
Proof. reflexivity. Qed.






(** ** Labelling *)

Lemma str_compare_flip (a b : str) :
  str_compare b a = CompOpp (str_compare a b).
Proof.
  revert b. induction a as [|x a IH]; intros [|y b]; simpl; try done.
  rewrite (Z.compare_antisym x y). destruct (x ?= y); simpl; [apply IH|done..].
Qed.

Lemma str_le_trans (a b c : str) :
  str_le a b = true -> str_le b c = true -> str_le a c = true.
Proof.
  unfold str_le. revert b c.
  induction a as [|x a IH]; intros [|y b] [|z c]; simpl; try done.
  destruct (Z.compare_spec x y), (Z.compare_spec y z),
    (Z.compare_spec x z); try done; try lia.
  apply IH.
Qed.

(** A range whose first key comes after its last key holds no key. *)
Lemma between_inverted (x first last : str) :
  str_lt last first = true -> between x first last = false.
Proof.
  unfold str_lt, between. intros H.
  destruct (str_le first x) eqn:E1; [|done].
  destruct (str_le x last) eqn:E2; [|done].
  pose proof (str_le_trans _ _ _ E1 E2) as E. unfold str_le in E.
  rewrite (str_compare_flip last first) in E.
  destruct (str_compare last first); simpl in *; done.
Qed.

Lemma label_speech_inverted (first last : str) (lines : list line_rec) :
  str_lt last first = true -> label_speech first last lines = lines.
Proof.
  intros H. unfold label_speech. rewrite <- (map_id lines) at 2.
  apply map_ext. intros r. by rewrite between_inverted.
Qed.

Lemma label_fold (ranges : list (str * str)) (lines : list line_rec) :
  fold_left (fun lines r => label_speech (fst r) (snd r) lines) ranges lines
  = map (fun r =>
           if existsb (fun rg => between (rec_id r) (fst rg) (snd rg)) ranges
           then {| rec_id := rec_id r; rec_label := lit "speech" |}
           else r) lines.
Proof.
  revert lines. induction ranges as [|[first last] ranges IH]; intros lines.
  - simpl. by rewrite map_id.
  - cbn [fold_left]. rewrite IH. unfold label_speech. rewrite map_map.
    apply map_ext. intros r. cbn [existsb fst snd].
    destruct (between (rec_id r) first last); simpl; [|done].
    by destruct (existsb _ ranges).
Qed.

Lemma label_ranges_map (ranges : list (str * str)) (ids : list str) :
  label_ranges ranges ids
  = map (fun i =>
           {| rec_id := i;
              rec_label :=
                if existsb (fun rg => between i (fst rg) (snd rg)) ranges
                then lit "speech" else lit "narration" |}) ids.
Proof.
  unfold label_ranges, default_label. rewrite label_fold, map_map.
  apply map_ext. intros i. simpl. by destruct (existsb _ ranges).
Qed.

Lemma label_speech_rows (first last : str) (lines : list line_rec) :
  lines <> [] -> label_speech first last lines <> [].
Proof. by destruct lines. Qed.

(** On a frame with rows, the loop of the script is [label_ranges] on the
    keys of the speeches. *)
Lemma label_loop_ranges (decimal : Z -> option Z)
    (speeches : list speech) (ranges : list (str * str))
    (lines : list line_rec) :
  Forall2 (fun s r => speech_ids decimal s = Ok r) speeches ranges ->
  lines <> [] ->
  label_loop decimal speeches lines
  = Ok (fold_left (fun lines r => label_speech (fst r) (snd r) lines)
                  ranges lines).
Proof.
  intros H. revert lines.
  induction H as [|s r speeches ranges Hs H IH]; intros lines Hne; [done|].
  cbn [label_loop fold_left]. rewrite Hs. cbn [mbind result_bind].
  destruct lines as [|l lines]; [done|]. cbn [column_id].
  apply IH. by apply label_speech_rows.
Qed.

(** On a frame without rows, the first speech that converts stops the loop:
    the frame has no [id] column. *)
Lemma label_loop_no_column (decimal : Z -> option Z)
    (s : speech) (rest : list speech) (r : str * str) :
  speech_ids decimal s = Ok r ->
  label_loop decimal (s :: rest) [] = Raise KeyError.
Proof. intros Hs. cbn [label_loop]. by rewrite Hs. Qed.

Lemma default_label_rows (ids : list str) :
  ids <> [] -> default_label ids <> [].
Proof. by destruct ids. Qed.

(** C7: a line is labelled speech exactly when its key lies between the
    first and last key of some range, both ends included, under string
    comparison, and narration otherwise; on an edition with lines, or
    without speeches, the loop of the script returns these labels for the
    keys of the speeches, without error; a range whose first key is greater
    than its last changes nothing and raises nothing; the four-line example
    gives narration, speech, speech, narration. On an edition without lines
    the frame has no [id] column to compare, and the first speech raises
    [KeyError]. *)
Theorem label_ranges_inclusive (ranges : list (str * str)) (ids : list str) :
  label_ranges ranges ids
  = map (fun i =>
           {| rec_id := i;
              rec_label :=
                if existsb (fun rg => str_le (fst rg) i && str_le i (snd rg))
                           ranges
                then lit "speech" else lit "narration" |}) ids
  /\ (forall (decimal : Z -> option Z) (speeches : list speech),
        Forall2 (fun s r => speech_ids decimal s = Ok r) speeches ranges ->
        (ids <> [] \/ speeches = [] ->
         label_lines decimal ids speeches = Ok (label_ranges ranges ids))
        /\ (ids = [] -> speeches <> [] ->
            label_lines decimal ids speeches = Raise KeyError))
  /\ (forall (first last : str) (lines : list line_rec),
        str_lt last first = true -> label_speech first last lines = lines)
  /\ label_lines ascii_decimal
       [lit "01_001"; lit "01_002"; lit "01_003"]
       [{| l_fi := lit "1.3"; l_la := lit "1.1" |}]
     = Ok (default_label [lit "01_001"; lit "01_002"; lit "01_003"])
  /\ map rec_label
       (label_ranges [(lit "01_002", lit "01_003")]
          [lit "01_001"; lit "01_002"; lit "01_003"; lit "01_004"])
     = [lit "narration"; lit "speech"; lit "speech"; lit "narration"].
Proof.
  split; [apply label_ranges_map|]. split; [|split; [|split]].
  - intros decimal speeches H. unfold label_lines, label_ranges. split.
    + intros [Hne | ->].
      * apply label_loop_ranges; [done | by apply default_label_rows].
      * by inversion H.
    + intros -> Hne. destruct H as [|s r speeches ranges Hs H]; [done|].
      by apply (label_loop_no_column decimal s speeches r).
  - apply label_speech_inverted.
  - reflexivity.
  - reflexivity.
Qed.

Example label_lines_demo :
  label_lines ascii_decimal
    [lit "01_001"; lit "01_002"; lit "01_003"; lit "01_004"]
    [{| l_fi := lit "1.2"; l_la := lit "1.3" |}]
  = Ok [ {| rec_id := lit "01_001"; rec_label := lit "narration" |};
         {| rec_id := lit "01_002"; rec_label := lit "speech" |};
         {| rec_id := lit "01_003"; rec_label := lit "speech" |};
         {| rec_id := lit "01_004"; rec_label := lit "narration" |} ].
Proof. reflexivity. Qed.

Example label_lines_inverted_demo :
  label_lines ascii_decimal
    [lit "01_001"; lit "01_002"; lit "01_003"]
    [{| l_fi := lit "1.3"; l_la := lit "1.1" |}]
  = Ok (default_label [lit "01_001"; lit "01_002"; lit "01_003"]).
Proof. reflexivity. Qed.

(** * Further properties *)

(** ** The reverse table *)

(** A surrogate resolves to the digraph it replaces, any other character to
    itself. *)
Theorem resolve_inverts_reversible (c : Z) :
  (forall d, In (d, [c]) reversible -> resolve c = d)
  /\ ((forall d, ~ In (d, [c]) reversible) -> resolve c = [c]).
Proof.
  split.
  - intros d H. vm_compute in H.
    repeat (destruct H as [H|H]; [by inversion H|]). done.
  - intros H. unfold resolve.
    destruct (odict_get_cases reverse_replacements [c] [c]) as [E|E]; [done|].
    exfalso. revert E. generalize (odict_get reverse_replacements [c] [c]).
    intros r E. apply (H r). vm_compute in E. vm_compute.
    repeat (destruct E as [E|E]; [inversion E; subst; tauto|]). done.
Qed.

(** ** The counts of a profile *)

Lemma key_count_cons (k : str) (c : Z) (s : str) :
  key_count k (c :: s)
  = (if bool_decide (resolve c = k) then 1 else 0) + key_count k s.
Proof.
  unfold key_count. case_bool_decide as E.
  - rewrite filter_cons_True by done. cbn [length]. lia.
  - rewrite filter_cons_False by done. lia.
Qed.

Lemma key_count_nonneg (k : str) (s : str) : 0 <= key_count k s.
Proof. unfold key_count. lia. Qed.

Lemma tally_loop_lookup (s : str) (m : gmap str Z) (k : str) :
  fold_left (fun count char => increment count (resolve char)) s m !! k
  = if key_count k s =? 0 then m !! k
    else Some (default 0 (m !! k) + key_count k s).
Proof.
  revert m. induction s as [|c s IH]; intros m; [done|].
  cbn [fold_left]. rewrite IH, key_count_cons.
  pose proof (key_count_nonneg k s) as Hs. unfold increment.
  case_bool_decide as E.
  - subst k. rewrite lookup_insert_eq. cbn [default].
    destruct (Z.eqb_spec (1 + key_count (resolve c) s) 0); [lia|].
    destruct (Z.eqb_spec (key_count (resolve c) s) 0) as [E0|E0];
      apply (f_equal Some); unfold id;
      generalize (default 0 (m !! resolve c)); intros; lia.
  - rewrite lookup_insert_ne by done. by rewrite Z.add_0_l.
Qed.

(** Every key of the tally of a non-empty string holds the number of
    characters counted under it, plus one for the onset key; a key with
    nothing to count is absent. *)
Theorem tally_counts (c : Z) (s : str) :
  exists p : gmap str Z,
    tally (c :: s) = Ok p
    /\ forall k : str,
        p !! k
        = let n := (if bool_decide (k = lit "_" ++ resolve c) then 1 else 0)
                   + key_count k (c :: s) in
          if n =? 0 then None else Some n.
Proof.
  eexists. split; [apply tally_cons|]. intros k. cbv zeta.
  rewrite tally_loop_lookup.
  pose proof (key_count_nonneg k (c :: s)) as Hs.
  case_bool_decide as E.
  - subst k. rewrite lookup_insert_eq. cbn [default].
    destruct (Z.eqb_spec
                (1 + key_count (lit "_" ++ resolve c) (c :: s)) 0); [lia|].
    destruct (Z.eqb_spec (key_count (lit "_" ++ resolve c) (c :: s)) 0)
      as [E0|E0]; apply (f_equal Some); unfold id; lia.
  - rewrite lookup_insert_ne, lookup_empty by done. cbn [default].
    rewrite !Z.add_0_l. by destruct (key_count k (c :: s) =? 0).
Qed.

(** The sound a word starts with is counted twice over: once under its onset
    key, and at least once under its own key. *)
Theorem onset_sound_in_body (nfkd lower : str -> str) (word : pyobj)
    (c : Z) (s : str) :
  normalize nfkd lower word = c :: s ->
  exists (p : gmap str Z) (n : Z),
    sounds_per_word nfkd lower word = Ok p
    /\ p !! (lit "_" ++ resolve c) = Some 1
    /\ p !! resolve c = Some n /\ 1 <= n.
Proof.
  intros Hn. unfold sounds_per_word. rewrite Hn, tally_cons.
  pose proof (normalize_canonical nfkd lower word) as Hc. rewrite Hn in Hc.
  assert (H95 : Forall (fun c => c <> 95) (c :: s)).
  { eapply Forall_impl; [exact Hc|]. apply canonical_char_not_prefix. }
  exists (fold_left (fun count char => increment count (resolve char))
            (c :: s) (<[lit "_" ++ resolve c := 1]> ∅)),
         (key_count (resolve c) (c :: s)).
  split; [done|]. split; [|split].
  - rewrite tally_loop_onset by done. apply lookup_insert_eq.
  - rewrite tally_loop_lookup.
    assert (Hne : lit "_" ++ resolve c <> resolve c).
    { intros E. apply (f_equal length) in E. rewrite length_app in E.
      simpl in E. lia. }
    rewrite lookup_insert_ne, lookup_empty by done. cbn [default].
    rewrite key_count_cons, bool_decide_eq_true_2 by done.
    pose proof (key_count_nonneg (resolve c) s).
    destruct (Z.eqb_spec (1 + key_count (resolve c) s) 0); [lia|].
    apply (f_equal Some). lia.
  - rewrite key_count_cons, bool_decide_eq_true_2 by done.
    pose proof (key_count_nonneg (resolve c) s). lia.
Qed.

Lemma onset_sound_in_body_witness :
  exists (p : gmap str Z) (n : Z),
    sounds_per_word unchanged unchanged
      (PyStr [Greek.omicron; Greek.iota; Greek.kappa; Greek.omicron;
              Greek.iota]) = Ok p
    /\ p !! (lit "_" ++ resolve 79) = Some 1
    /\ p !! resolve 79 = Some n /\ 1 <= n.
Proof.
  apply (onset_sound_in_body unchanged unchanged _ 79 [Greek.kappa; 79]).
  reflexivity.
Defined.

(** ** What a canonical sound string never holds *)

Lemma normalize_split (nfkd lower : str -> str) (word : pyobj) :
  normalize nfkd lower word
  = (if contains Greek.rough_breathing (decomposed nfkd lower word)
     then lit "h" else [])
    ++ apply_table replacements
         (strip (remove_diacritics (decomposed nfkd lower word))).
Proof.
  unfold normalize. destruct (contains _ _); [|done].
  change (lit "h" ++ ?x) with (104 :: x). rewrite apply_table_head; [done|].
  vm_compute. by repeat constructor.
Qed.

(** The marker [h] comes from the rough breathing only: it is the first
    character when the mark is in the text and occurs nowhere else. *)
Theorem marker_only_from_breathing (nfkd lower : str -> str) (word : pyobj) :
  exists body : str,
    normalize nfkd lower word
    = (if contains Greek.rough_breathing (decomposed nfkd lower word)
       then lit "h" else []) ++ body
    /\ contains 104 body = false.
Proof.
  eexists. split; [apply normalize_split|].
  apply contains_false, apply_table_Forall.
  - vm_compute. repeat constructor; discriminate.
  - apply strip_with_Forall.
    eapply Forall_impl; [apply remove_diacritics_Forall|].
    intros c Hc ->. vm_compute in Hc. discriminate.
Qed.

Lemma merge_char_merged (c : Z) :
  merge_char c <> Greek.final_sigma /\ merge_char c <> Greek.theta
  /\ merge_char c <> Greek.chi /\ merge_char c <> Greek.phi.
Proof.
  unfold merge_char, Greek.final_sigma, Greek.sigma, Greek.theta, Greek.tau,
    Greek.chi, Greek.kappa, Greek.phi, Greek.pi.
  destruct (Z.eqb_spec c 962); [lia|]. destruct (Z.eqb_spec c 952); [lia|].
  destruct (Z.eqb_spec c 967); [lia|]. destruct (Z.eqb_spec c 966); lia.
Qed.

Lemma normalize_merged (nfkd lower : str -> str) (word : pyobj) :
  exists t : str,
    normalize nfkd lower word = map merge_char (apply_table reversible t).
Proof.
  eexists. unfold normalize.
  by rewrite replacements_order, apply_table_app, apply_one_time.
Qed.

(** No canonical sound string holds a final sigma, a theta, a chi or a phi:
    the permanent changes leave none behind. *)
Theorem merged_letters_absent (nfkd lower : str -> str) (word : pyobj)
    (k v : str) :
  In (k, v) one_time ->
  forall c, In c k -> contains c (normalize nfkd lower word) = false.
Proof.
  intros Hk c Hc.
  assert (Hcase : c = Greek.final_sigma \/ c = Greek.theta
                  \/ c = Greek.chi \/ c = Greek.phi).
  { vm_compute in Hk.
    destruct Hk as [Hk|[Hk|[Hk|[Hk|[]]]]]; inversion Hk; subst k v;
      destruct Hc as [Hc|[]]; subst c; auto. }
  destruct (normalize_merged nfkd lower word) as [t ->].
  apply contains_false, Forall_forall. intros x Hx E.
  apply list_elem_of_fmap in Hx as (y & Hy & _).
  pose proof (merge_char_merged y) as (H1 & H2 & H3 & H4).
  destruct Hcase as [?|[?|[?|?]]]; congruence.
Qed.

Lemma merged_letters_absent_witness :
  contains Greek.theta
    (normalize unchanged unchanged
       (PyStr [Greek.theta; Greek.epsilon; Greek.omicron;
               Greek.final_sigma])) = false.
Proof.
  apply (merged_letters_absent unchanged unchanged _
           [Greek.theta] [Greek.tau]).
  - vm_compute. tauto.
  - left. reflexivity.
Defined.

Lemma has_pair_cons (x y c : Z) (s : str) :
  has_pair x y (c :: s)
  = match s with d :: _ => (c =? x) && (d =? y) | [] => false end
    || has_pair x y s.
Proof. by destruct s. Qed.

Lemma re_sub_from_head (k : str) (z : Z) (s : str) :
  match re_sub_from k [z] s 0 with
  | [] => True
  | d :: _ => d = z \/ match s with d' :: _ => d = d' | [] => False end
  end.
Proof.
  destruct s as [|c s]; [done|]. cbn [re_sub_from].
  destruct (starts_with k (c :: s)); simpl; auto.
Qed.

(** A substitution whose surrogate is neither [x] nor [y] does not bring
    [x] and [y] together. *)
Lemma re_sub_from_keeps_apart (x y : Z) (k : str) (z : Z) (s : str) (n : nat) :
  z <> x -> z <> y -> has_pair x y s = false ->
  has_pair x y (re_sub_from k [z] s n) = false.
Proof.
  intros Hx Hy. revert n. induction s as [|c s IH]; intros n Hs; [done|].
  rewrite has_pair_cons in Hs. apply orb_false_iff in Hs as [Hc Hs].
  cbn [re_sub_from]. destruct n as [|n]; [|by apply IH].
  destruct (starts_with k (c :: s)).
  - change ([z] ++ ?l) with (z :: l). rewrite has_pair_cons, IH by done.
    rewrite (proj2 (Z.eqb_neq z x)) by done. by destruct (re_sub_from _ _ _ _).
  - rewrite has_pair_cons, IH by done.
    pose proof (re_sub_from_head k z s) as Hh.
    destruct (re_sub_from k [z] s 0) as [|d out]; [done|].
    destruct Hh as [->|Hh].
    + rewrite (proj2 (Z.eqb_neq z y)) by done. by rewrite andb_false_r.
    + destruct s as [|d' s]; [done|]. subst d'. by rewrite Hc.
Qed.

(** After the substitution of [x y] no [x] is followed by [y]. *)
Lemma re_sub_from_parts (x y z : Z) (s : str) (n : nat) :
  z <> x -> z <> y -> has_pair x y (re_sub_from [x; y] [z] s n) = false.
Proof.
  intros Hx Hy. revert n. induction s as [|c s IH]; intros n; [done|].
  cbn [re_sub_from]. destruct n as [|n]; [|by apply IH].
  destruct (starts_with [x; y] (c :: s)) eqn:E.
  - change ([z] ++ ?l) with (z :: l). rewrite has_pair_cons, IH.
    rewrite (proj2 (Z.eqb_neq z x)) by done. by destruct (re_sub_from _ _ _ _).
  - rewrite has_pair_cons, IH.
    pose proof (re_sub_from_head [x; y] z s) as Hh.
    destruct (re_sub_from [x; y] [z] s 0) as [|d out]; [done|].
    destruct Hh as [->|Hh].
    + rewrite (proj2 (Z.eqb_neq z y)) by done. by rewrite andb_false_r.
    + destruct s as [|d' s]; [done|]. subst d'. simpl in E.
      rewrite andb_true_r in E.
      by rewrite (Z.eqb_sym c x), (Z.eqb_sym d y), E.
Qed.

Lemma has_pair_map (g : Z -> Z) (x y : Z) (s : str) :
  (forall c, (x =? g c) = (x =? c)) -> (forall c, (y =? g c) = (y =? c)) ->
  has_pair x y (map g s) = has_pair x y s.
Proof.
  intros Hx Hy. induction s as [|c s IH]; [done|].
  cbn [map]. rewrite !has_pair_cons, IH.
  destruct s as [|d s]; [done|]. cbn [map].
  by rewrite (Z.eqb_sym (g c)), (Z.eqb_sym (g d)), Hx, Hy,
    (Z.eqb_sym x), (Z.eqb_sym y).
Qed.

Lemma occurs_has_pair (x y : Z) (s : str) :
  occurs [x; y] s -> has_pair x y s = true.
Proof.
  intros (before & after & ->). induction before as [|c before IH].
  - simpl. by rewrite !Z.eqb_refl.
  - change ((c :: before) ++ ?l) with (c :: (before ++ l)).
    rewrite has_pair_cons, IH. apply orb_true_r.
Qed.

Lemma reversible_codes :
  reversible
  = [ ([959; 953], [79]); ([945; 953], [921]); ([949; 953], [101]);
      ([965; 953], [89]); ([945; 965], [913]); ([949; 965], [117]);
      ([959; 965], [85]) ].
Proof. reflexivity. Qed.

(** No canonical sound string holds a digraph of the table: each one has
    been replaced by its surrogate, and no later rule brings its two letters
    together again. *)
Theorem digraphs_absent (nfkd lower : str -> str) (word : pyobj)
    (k v : str) :
  In (k, v) reversible -> ~ occurs k (normalize nfkd lower word).
Proof.
  intros Hk Ho. destruct (normalize_merged nfkd lower word) as [t E].
  rewrite E in Ho. clear E. rewrite reversible_codes in Hk, Ho.
  unfold apply_table, re_sub in Ho. cbn [fold_left fst snd] in Ho.
  cbn [In] in Hk.
  repeat (destruct Hk as [Hk|Hk];
    [ inversion Hk; subst k v; clear Hk;
      apply occurs_has_pair in Ho;
      rewrite has_pair_map in Ho
        by (apply merge_char_keeps; vm_compute; discriminate);
      revert Ho; apply not_true_iff_false;
      repeat first
        [ apply re_sub_from_parts; discriminate
        | apply re_sub_from_keeps_apart; [discriminate | discriminate |] ]
    | ]).
  done.
Qed.

Lemma digraphs_absent_witness :
  ~ occurs [Greek.alpha; Greek.upsilon]
      (normalize unchanged unchanged
         (PyStr [Greek.alpha; Greek.upsilon; Greek.iota])).
Proof.
  apply (digraphs_absent unchanged unchanged _ _ [Greek.cap_alpha]).
  vm_compute. tauto.
Defined.

(** ** Splitting a locus at its dot *)

Lemma split_on_nonempty (sep : Z) (s : str) : split_on sep s <> [].
Proof.
  induction s as [|c s IH]; simpl; [done|].
  destruct (c =? sep); [done|]. by destruct (split_on sep s).
Qed.

Lemma join_on_cons (sep : str) (part : str) (rest : list str) :
  rest <> [] -> join_on sep (part :: rest) = part ++ sep ++ join_on sep rest.
Proof. by destruct rest. Qed.

Lemma split_on_length (sep : Z) (s : str) :
  length (split_on sep s) = S (count_char sep s).
Proof.
  unfold count_char. induction s as [|c s IH]; [done|].
  cbn [split_on]. destruct (Z.eqb_spec c sep) as [->|Hc].
  - rewrite filter_cons_True by done. simpl. by rewrite IH.
  - rewrite filter_cons_False by done.
    pose proof (split_on_nonempty sep s) as Hne.
    by destruct (split_on sep s).
Qed.

(** [split] cuts at every separator and nowhere else: joining the parts
    with the separator gives the string back, no part holds the separator,
    and there is one part more than there are separators. *)
Theorem split_on_round_trip (sep : Z) (s : str) :
  join_on [sep] (split_on sep s) = s
  /\ Forall (fun part => ~ In sep part) (split_on sep s)
  /\ length (split_on sep s) = S (count_char sep s).
Proof.
  split; [|split; [|apply split_on_length]].
  - induction s as [|c s IH]; [done|].
    cbn [split_on]. destruct (Z.eqb_spec c sep) as [->|Hc].
    + rewrite join_on_cons by apply split_on_nonempty. by rewrite IH.
    + pose proof (split_on_nonempty sep s) as Hne.
      destruct (split_on sep s) as [|part [|p parts]]; [done|..];
        simpl in *; by rewrite <- IH.
  - induction s as [|c s IH].
    + repeat constructor. by intros [].
    + cbn [split_on]. destruct (Z.eqb_spec c sep) as [->|Hc].
      * constructor; [by intros [] | done].
      * pose proof (split_on_nonempty sep s) as Hne.
        destruct (split_on sep s) as [|part parts]; [done|].
        apply Forall_cons in IH as [Hp Hps]. constructor; [|done].
        intros [E|E]; [by apply Hc | by apply Hp].
Qed.

Lemma unpack2_other (parts : list str) :
  length parts <> 2%nat -> unpack2 parts = Raise ValueError.
Proof. by destruct parts as [|a [|b [|c parts]]]. Qed.

(** A locus of a speech without exactly one dot makes [speech_ids] raise a
    [ValueError], whatever the other locus is. *)
Theorem speech_ids_needs_one_dot (decimal : Z -> option Z) (sp : speech) :
  count_char 46 (l_fi sp) <> 1%nat \/ count_char 46 (l_la sp) <> 1%nat ->
  speech_ids decimal sp = Raise ValueError.
Proof.
  intros H. unfold speech_ids.
  destruct (decide (count_char 46 (l_fi sp) = 1%nat)) as [E1|E1].
  - destruct H as [H|H]; [done|].
    destruct (unpack2 (split_on 46 (l_fi sp))) as [first|e] eqn:U1.
    + cbn [mbind result_bind].
      rewrite (unpack2_other (split_on 46 (l_la sp))); [done|].
      rewrite split_on_length. lia.
    + rewrite unpack2_other in U1; [by inversion U1|].
      destruct (split_on 46 (l_fi sp)) as [|a [|b [|c parts]]]; done.
  - rewrite (unpack2_other (split_on 46 (l_fi sp))); [done|].
    rewrite split_on_length. lia.
Qed.

Lemma speech_ids_needs_one_dot_witness :
  speech_ids ascii_decimal {| l_fi := lit "1.2.3"; l_la := lit "1.5" |}
  = Raise ValueError.
Proof.
  apply speech_ids_needs_one_dot. left. vm_compute. discriminate.
Defined.

Lemma label_loop_aborts (decimal : Z -> option Z)
    (done_ : list speech) (sp : speech) (rest : list speech) (e : exn)
    (lines : list line_rec) :
  Forall (fun s => exists r, speech_ids decimal s = Ok r) done_ ->
  speech_ids decimal sp = Raise e ->
  lines <> [] ->
  label_loop decimal (done_ ++ sp :: rest) lines = Raise e.
Proof.
  intros Hd He. revert lines.
  induction Hd as [|s done_ [r Hr] Hd IH]; intros lines Hne.
  - cbn [app label_loop]. by rewrite He.
  - cbn [app label_loop]. rewrite Hr. cbn [mbind result_bind].
    destruct lines as [|l lines]; [done|]. cbn [column_id].
    apply IH. by apply label_speech_rows.
Qed.

(** On an edition with lines, the first speech whose loci do not convert
    aborts the labelling with its error: no labels are returned. On an
    edition without lines the loop stops earlier when a speech before it
    converts: the frame has no [id] column, and that speech raises
    [KeyError]. *)
Theorem label_lines_aborts (decimal : Z -> option Z) (ids : list str)
    (done_ : list speech) (sp : speech) (rest : list speech) (e : exn) :
  Forall (fun s => exists r, speech_ids decimal s = Ok r) done_ ->
  speech_ids decimal sp = Raise e ->
  (ids <> [] \/ done_ = [] ->
   label_lines decimal ids (done_ ++ sp :: rest) = Raise e)
  /\ (ids = [] -> done_ <> [] ->
      label_lines decimal ids (done_ ++ sp :: rest) = Raise KeyError).
Proof.
  intros Hd He. unfold label_lines. split.
  - intros [Hne | ->].
    + apply label_loop_aborts; [done | done | by apply default_label_rows].
    + cbn [app label_loop]. by rewrite He.
  - intros -> Hne. destruct Hd as [|s done_ [r Hr] Hd]; [done|].
    by apply (label_loop_no_column decimal s _ r).
Qed.

Lemma label_lines_aborts_witness :
  ([lit "01_001"; lit "01_002"] <> []
   \/ [{| l_fi := lit "1.1"; l_la := lit "1.1" |}] = [] ->
   label_lines ascii_decimal [lit "01_001"; lit "01_002"]
     ([{| l_fi := lit "1.1"; l_la := lit "1.1" |}]
      ++ {| l_fi := lit "1.x"; l_la := lit "1.2" |}
      :: [{| l_fi := lit "1.2"; l_la := lit "1.2" |}])
   = Raise ValueError)
  /\ ([lit "01_001"; lit "01_002"] = [] ->
      [{| l_fi := lit "1.1"; l_la := lit "1.1" |}] <> [] ->
      label_lines ascii_decimal [lit "01_001"; lit "01_002"]
        ([{| l_fi := lit "1.1"; l_la := lit "1.1" |}]
         ++ {| l_fi := lit "1.x"; l_la := lit "1.2" |}
         :: [{| l_fi := lit "1.2"; l_la := lit "1.2" |}])
      = Raise KeyError).
Proof.
  apply label_lines_aborts; [|reflexivity].
  repeat constructor. by eexists.
Defined.

Example label_lines_no_rows :
  label_lines ascii_decimal [] [] = Ok []
  /\ label_lines ascii_decimal [] [{| l_fi := lit "1.1"; l_la := lit "1.2" |}]
     = Raise KeyError
  /\ label_lines ascii_decimal [] [{| l_fi := lit "1.x"; l_la := lit "1.2" |}]
     = Raise ValueError
  /\ label_lines ascii_decimal []
       [{| l_fi := lit "1.1"; l_la := lit "1.2" |};
        {| l_fi := lit "1.x"; l_la := lit "1.2" |}]
     = Raise KeyError.
Proof. by vm_compute. Qed.

(** ** Keys and document order *)

Lemma str_compare_refl (a : str) : str_compare a a = Eq.
Proof. induction a as [|x a IH]; simpl; [done|]. by rewrite Z.compare_refl. Qed.

Lemma locus_compare_eq (a b : locus) : locus_compare a b = Eq -> a = b.
Proof.
  unfold locus_compare. destruct a as [ba la sa], b as [bb lb sb]; simpl.
  destruct (Z.compare_spec ba bb); try done.
  destruct (Z.compare_spec la lb); try done. subst.
  destruct sa as [x|], sb as [y|]; simpl; try done.
  intros E. apply Z.compare_eq in E. by subst.
Qed.

Lemma locus_key_inj (a b : locus) :
  locus_in_range a -> locus_in_range b ->
  locus_key a = locus_key b -> a = b.
Proof.
  intros Ha Hb E. apply locus_compare_eq.
  rewrite <- (locus_key_order a b Ha Hb), E. apply str_compare_refl.
Qed.

(** [create_id] gives each locus in range a key, from its book number and
    its line, and two loci get the same key only when they are the same
    locus. *)
Theorem create_id_injective (decimal : Z -> option Z) (a b : locus) :
  (forall c, 0 <= c < 128 -> decimal c = ascii_decimal c) ->
  locus_in_range a -> locus_in_range b ->
  exists ka kb : str,
    create_id decimal (PyInt (loc_book a)) (locus_line a) = Ok ka
    /\ create_id decimal (PyInt (loc_book b)) (locus_line b) = Ok kb
    /\ (ka = kb <-> a = b)
    /\ (create_id decimal (PyInt (loc_book a)) (locus_line a)
        = create_id decimal (PyInt (loc_book b)) (locus_line b) -> a = b).
Proof.
  intros Hd Ha Hb. exists (locus_key a), (locus_key b).
  rewrite !create_id_locus_line by done.
  split; [done|]. split; [done|]. split; [split|].
  - by apply locus_key_inj.
  - by intros ->.
  - intros E. apply locus_key_inj; [done | done | congruence].
Qed.

Lemma create_id_injective_witness :
  exists ka kb : str,
    create_id ascii_decimal (PyInt 3) (lit "14a") = Ok ka
    /\ create_id ascii_decimal (PyInt 3) (lit "14") = Ok kb
    /\ (ka = kb
        <-> {| loc_book := 3; loc_line := 14; loc_suffix := Some 97 |}
            = {| loc_book := 3; loc_line := 14; loc_suffix := None |})
    /\ (create_id ascii_decimal (PyInt 3) (lit "14a")
        = create_id ascii_decimal (PyInt 3) (lit "14") ->
        {| loc_book := 3; loc_line := 14; loc_suffix := Some 97 |}
        = {| loc_book := 3; loc_line := 14; loc_suffix := None |}).
Proof.
  apply (create_id_injective ascii_decimal
           {| loc_book := 3; loc_line := 14; loc_suffix := Some 97 |}
           {| loc_book := 3; loc_line := 14; loc_suffix := None |});
    [reflexivity | |]; vm_compute; intuition discriminate.
Defined.

Lemma between_keys (l a b : locus) :
  locus_in_range l -> locus_in_range a -> locus_in_range b ->
  between (locus_key l) (locus_key a) (locus_key b)
  = locus_leb a l && locus_leb l b.
Proof.
  intros Hl Ha Hb. unfold between, str_le, locus_leb.
  by rewrite !locus_key_order.
Qed.

(** On keys of loci in range, [between] is the range test in document
    order: the key lies between the two keys exactly when the locus lies
    between the two loci. *)
Theorem between_is_document_range (l a b : locus) :
  locus_in_range l -> locus_in_range a -> locus_in_range b ->
  between (locus_key l) (locus_key a) (locus_key b) = true
  <-> locus_compare a l <> Gt /\ locus_compare l b <> Gt.
Proof.
  intros Hl Ha Hb. rewrite between_keys by done. unfold locus_leb.
  rewrite andb_true_iff.
  destruct (locus_compare a l), (locus_compare l b); intuition congruence.
Qed.

Lemma between_is_document_range_witness :
  between (locus_key {| loc_book := 1; loc_line := 7; loc_suffix := None |})
          (locus_key {| loc_book := 1; loc_line := 2; loc_suffix := None |})
          (locus_key {| loc_book := 1; loc_line := 7;
                        loc_suffix := Some 98 |}) = true
  <-> locus_compare {| loc_book := 1; loc_line := 2; loc_suffix := None |}
                    {| loc_book := 1; loc_line := 7; loc_suffix := None |}
      <> Gt
      /\ locus_compare {| loc_book := 1; loc_line := 7; loc_suffix := None |}
                       {| loc_book := 1; loc_line := 7;
                          loc_suffix := Some 98 |} <> Gt.
Proof.
  apply between_is_document_range; vm_compute; intuition discriminate.
Defined.

(** ** Speeches given by loci *)

Lemma split_on_single (sep : Z) (a : str) :
  ~ In sep a -> split_on sep a = [a].
Proof.
  induction a as [|c a IH]; intros H; [done|]. cbn [split_on].
  destruct (Z.eqb_spec c sep) as [->|Hc]; [by destruct H; left|].
  rewrite IH; [done|]. intros Hin. apply H. by right.
Qed.

Lemma split_on_app (sep : Z) (a b : str) :
  ~ In sep a -> split_on sep (a ++ sep :: b) = a :: split_on sep b.
Proof.
  induction a as [|c a IH]; intros H.
  - simpl. by rewrite Z.eqb_refl.
  - cbn [app split_on].
    destruct (Z.eqb_spec c sep) as [->|Hc]; [by destruct H; left|].
    rewrite IH; [done|]. intros Hin. apply H. by right.
Qed.

Lemma digits_without (c : Z) (ds : str) :
  Forall ascii_digit ds -> ~ ascii_digit c -> ~ In c ds.
Proof.
  intros Hds Hc Hin. rewrite Forall_forall in Hds.
  apply Hc, Hds. by apply list_elem_of_In.
Qed.

Lemma locus_line_without (c : Z) (l : locus) :
  locus_in_range l -> c < 48 \/ (57 < c < 97) -> ~ In c (locus_line l).
Proof.
  intros (_ & Hl & Hs) Hc Hin. unfold locus_line in Hin.
  apply in_app_or in Hin as [Hin|Hin].
  - destruct (str_of_nat_digits _ Hl) as (_ & Hds & _).
    revert Hin. apply digits_without; [done|]. unfold ascii_digit. lia.
  - unfold suffix_str in Hin. destruct (loc_suffix l) as [x|]; [|done].
    destruct Hin as [->|[]]. unfold is_lower_az in Hs. lia.
Qed.

Section SpeechFacts.
Variable decimal : Z -> option Z.
Hypothesis decimal_ascii : forall c, 0 <= c < 128 -> decimal c = ascii_decimal c.

Lemma create_id_dices (l : locus) :
  locus_in_range l ->
  create_id decimal (PyStr (str_of_nat (loc_book l))) (locus_line l)
  = Ok (locus_key l).
Proof.
  intros Hl. pose proof Hl as (Hb & Hline & _).
  destruct (str_of_nat_digits (loc_book l)) as (Hbne & Hbds & Hbv); [lia|].
  destruct (str_of_nat_digits _ Hline) as (Hne & Hds & Hv).
  apply create_id_locus; try done; [|by apply str_of_nat_length].
  cbn [int_]. rewrite int_str_digits, Hbv; try done.
  apply str_of_nat_length. lia.
Qed.

Lemma speech_ids_dices (a b : locus) :
  locus_in_range a -> locus_in_range b ->
  speech_ids decimal {| l_fi := dices_locus a; l_la := dices_locus b |}
  = Ok (locus_key a, locus_key b).
Proof.
  intros Ha Hb.
  assert (Hsplit : forall l, locus_in_range l ->
            unpack2 (split_on 46 (dices_locus l))
            = Ok (str_of_nat (loc_book l), locus_line l)).
  { intros l Hl. unfold dices_locus.
    change (lit "." ++ ?x) with (46 :: x).
    pose proof Hl as (Hbk & _ & _).
    destruct (str_of_nat_digits (loc_book l)) as (_ & Hbds & _); [lia|].
    rewrite split_on_app
      by (apply digits_without; [done | unfold ascii_digit; lia]).
    rewrite split_on_single by (apply locus_line_without; [done | lia]).
    reflexivity. }
  unfold speech_ids. cbn [l_fi l_la].
  rewrite !Hsplit by done. cbn [mbind result_bind fst snd].
  by rewrite !create_id_dices.
Qed.

Lemma speeches_dices (speeches : list (locus * locus)) :
  Forall (fun ab => locus_in_range (fst ab) /\ locus_in_range (snd ab))
         speeches ->
  Forall2 (fun s r => speech_ids decimal s = Ok r)
    (map (fun ab => {| l_fi := dices_locus (fst ab);
                       l_la := dices_locus (snd ab) |}) speeches)
    (map (fun ab => (locus_key (fst ab), locus_key (snd ab))) speeches).
Proof.
  induction 1 as [|[a b] speeches [Ha Hb] H IH]; cbn [map]; constructor;
    [by apply speech_ids_dices | done].
Qed.

End SpeechFacts.

(** A locus of the API written as book, dot, line gives the key of the line
    of the edition with that book and line: both sources meet on the same
    keys. *)
Theorem speech_ids_match_line_ids (decimal : Z -> option Z) (a b : locus) :
  (forall c, 0 <= c < 128 -> decimal c = ascii_decimal c) ->
  locus_in_range a -> locus_in_range b ->
  exists id_first id_last,
    speech_ids decimal {| l_fi := dices_locus a; l_la := dices_locus b |}
    = Ok (id_first, id_last)
    /\ create_id decimal (PyStr (str_of_nat (loc_book a))) (locus_line a)
       = Ok id_first
    /\ create_id decimal (PyStr (str_of_nat (loc_book b))) (locus_line b)
       = Ok id_last.
Proof.
  intros Hd Ha Hb. exists (locus_key a), (locus_key b).
  split; [by apply speech_ids_dices|].
  split; by apply create_id_dices.
Qed.

Lemma speech_ids_match_line_ids_witness :
  exists id_first id_last,
    speech_ids ascii_decimal
      {| l_fi := dices_locus {| loc_book := 1; loc_line := 2;
                                loc_suffix := None |};
         l_la := dices_locus {| loc_book := 1; loc_line := 30;
                                loc_suffix := Some 97 |} |}
    = Ok (id_first, id_last)
    /\ create_id ascii_decimal (PyStr (str_of_nat 1))
         (locus_line {| loc_book := 1; loc_line := 2; loc_suffix := None |})
       = Ok id_first
    /\ create_id ascii_decimal (PyStr (str_of_nat 1))
         (locus_line {| loc_book := 1; loc_line := 30;
                        loc_suffix := Some 97 |})
       = Ok id_last.
Proof.
  apply (speech_ids_match_line_ids ascii_decimal
           {| loc_book := 1; loc_line := 2; loc_suffix := None |}
           {| loc_book := 1; loc_line := 30; loc_suffix := Some 97 |});
    [reflexivity | |]; vm_compute; intuition discriminate.
Defined.

Lemma existsb_between_keys (l : locus) (speeches : list (locus * locus)) :
  locus_in_range l ->
  Forall (fun ab => locus_in_range (fst ab) /\ locus_in_range (snd ab))
         speeches ->
  existsb (fun rg => between (locus_key l) (fst rg) (snd rg))
          (map (fun ab => (locus_key (fst ab), locus_key (snd ab))) speeches)
  = existsb (fun ab => locus_leb (fst ab) l && locus_leb l (snd ab)) speeches.
Proof.
  intros Hl. induction 1 as [|[a b] speeches [Ha Hb] H IH]; [done|].
  cbn [map existsb fst snd]. by rewrite IH, between_keys.
Qed.

(** The main block end to end, on loci in range: with the lines of the
    edition and the speeches of the API both given by their loci, a line is
    labelled speech exactly when it lies, in document order, between the
    first and the last locus of some speech, and narration otherwise. The
    edition has at least one line: without lines the frame has no [id]
    column. *)
Theorem label_lines_by_locus (decimal : Z -> option Z)
    (lines : list locus) (speeches : list (locus * locus)) :
  (forall c, 0 <= c < 128 -> decimal c = ascii_decimal c) ->
  lines <> [] ->
  Forall locus_in_range lines ->
  Forall (fun ab => locus_in_range (fst ab) /\ locus_in_range (snd ab))
         speeches ->
  label_lines decimal (map locus_key lines)
    (map (fun ab => {| l_fi := dices_locus (fst ab);
                       l_la := dices_locus (snd ab) |}) speeches)
  = Ok (map (fun l =>
               {| rec_id := locus_key l;
                  rec_label :=
                    if existsb (fun ab => locus_leb (fst ab) l
                                          && locus_leb l (snd ab)) speeches
                    then lit "speech" else lit "narration" |}) lines).
Proof.
  intros Hd Hne Hl Hs. unfold label_lines.
  rewrite (label_loop_ranges decimal _ _ _ (speeches_dices decimal Hd _ Hs))
    by (by destruct lines).
  f_equal. fold (label_ranges
    (map (fun ab => (locus_key (fst ab), locus_key (snd ab))) speeches)
    (map locus_key lines)).
  rewrite label_ranges_map, map_map.
  clear Hne. induction Hl as [|l lines Hl Hls IH]; [done|].
  cbn [map]. by rewrite IH, existsb_between_keys.
Qed.

Lemma label_lines_by_locus_witness :
  label_lines ascii_decimal
    (map locus_key
       [ {| loc_book := 1; loc_line := 9; loc_suffix := None |};
         {| loc_book := 1; loc_line := 10; loc_suffix := None |};
         {| loc_book := 1; loc_line := 10; loc_suffix := Some 97 |};
         {| loc_book := 2; loc_line := 1; loc_suffix := None |} ])
    (map (fun ab => {| l_fi := dices_locus (fst ab);
                       l_la := dices_locus (snd ab) |})
       [ ({| loc_book := 1; loc_line := 10; loc_suffix := None |},
          {| loc_book := 1; loc_line := 11; loc_suffix := None |}) ])
  = Ok (map (fun l =>
               {| rec_id := locus_key l;
                  rec_label :=
                    if existsb (fun ab => locus_leb (fst ab) l
                                          && locus_leb l (snd ab))
                         [ ({| loc_book := 1; loc_line := 10;
                               loc_suffix := None |},
                            {| loc_book := 1; loc_line := 11;
                               loc_suffix := None |}) ]
                    then lit "speech" else lit "narration" |})
          [ {| loc_book := 1; loc_line := 9; loc_suffix := None |};
            {| loc_book := 1; loc_line := 10; loc_suffix := None |};
            {| loc_book := 1; loc_line := 10; loc_suffix := Some 97 |};
            {| loc_book := 2; loc_line := 1; loc_suffix := None |} ]).
Proof.
  apply label_lines_by_locus; [reflexivity | discriminate | |];
    repeat constructor; vm_compute; intuition discriminate.
Defined.

(** ** What labelling keeps *)

Lemma existsb_permutation {A} (f : A -> bool) (l l' : list A) :
  Permutation l l' -> existsb f l = existsb f l'.
Proof.
  induction 1 as [|x l l' H IH|x y l|l l' l'' H IH H' IH']; simpl.
  - done.
  - by rewrite IH.
  - by destruct (f x), (f y).
  - by rewrite IH.
Qed.

(** Labelling keeps the rows and their ids, writes no label but speech and
    narration, and does not depend on the order of the ranges nor on a
    range being given twice. *)
Theorem label_ranges_rows (ranges : list (str * str)) (ids : list str) :
  map rec_id (label_ranges ranges ids) = ids
  /\ Forall (fun r => rec_label r = lit "speech"
                      \/ rec_label r = lit "narration")
            (label_ranges ranges ids)
  /\ (forall ranges', Permutation ranges ranges' ->
        label_ranges ranges' ids = label_ranges ranges ids)
  /\ label_ranges (ranges ++ ranges) ids = label_ranges ranges ids.
Proof.
  rewrite !label_ranges_map. split; [|split; [|split]].
  - rewrite map_map. cbn [rec_id]. apply map_id.
  - apply Forall_forall. intros r Hr.
    apply list_elem_of_fmap in Hr as (i & -> & _). cbn [rec_label].
    destruct (existsb _ ranges); auto.
  - intros ranges' Hp. rewrite label_ranges_map. apply map_ext. intros i.
    by rewrite (existsb_permutation _ _ _ Hp).
  - apply map_ext. intros i. rewrite existsb_app.
    by destruct (existsb _ ranges).
Qed.

(** ** A key taken apart and built again *)

(** Splitting the key of a locus in range at its underscore gives a book
    and a line from which [create_id] builds the same key again. *)
Theorem create_id_reencodes_key (decimal : Z -> option Z) (l : locus) :
  (forall c, 0 <= c < 128 -> decimal c = ascii_decimal c) ->
  locus_in_range l ->
  exists book line : str,
    split_on 95 (locus_key l) = [book; line]
    /\ create_id decimal (PyStr book) line = Ok (locus_key l).
Proof.
  intros Hd Hl. pose proof Hl as (Hb & Hn & Hs).
  set (b := loc_book l) in *. set (n := loc_line l) in *.
  exists [48 + b / 10; 48 + b mod 10],
         ([48 + n / 100; 48 + (n / 10) mod 10; 48 + n mod 10]
          ++ suffix_str l).
  assert (Hbd : Forall ascii_digit [48 + b / 10; 48 + b mod 10]).
  { repeat constructor; unfold ascii_digit;
      Z.div_mod_to_equations; lia. }
  assert (Hnd : Forall ascii_digit
                  [48 + n / 100; 48 + (n / 10) mod 10; 48 + n mod 10]).
  { repeat constructor; unfold ascii_digit;
      Z.div_mod_to_equations; lia. }
  split.
  - unfold locus_key. fold b n.
    change ([?b1; ?b0; 95; ?l2; ?l1; ?l0] ++ ?x)
      with ([b1; b0] ++ 95 :: ([l2; l1; l0] ++ x)).
    rewrite split_on_app
      by (apply digits_without; [done | unfold ascii_digit; lia]).
    rewrite split_on_single; [done|].
    intros Hin. apply in_app_or in Hin as [Hin|Hin].
    + revert Hin. apply digits_without; [done | unfold ascii_digit; lia].
    + unfold suffix_str in Hin. destruct (loc_suffix l) as [x|]; [|done].
      destruct Hin as [E|[]]. subst x. by vm_compute in Hs.
  - apply create_id_locus; [done | | done | done | by vm_compute | | done].
    + cbn [int_]. rewrite int_str_digits by (done || by vm_compute).
      f_equal. unfold digits_value. cbn [fold_left]. fold b.
      Z.div_mod_to_equations. lia.
    + unfold digits_value. cbn [fold_left]. fold n.
      Z.div_mod_to_equations. lia.
Qed.

Lemma create_id_reencodes_key_witness :
  exists book line : str,
    split_on 95
      (locus_key {| loc_book := 12; loc_line := 23; loc_suffix := Some 98 |})
    = [book; line]
    /\ create_id ascii_decimal (PyStr book) line
       = Ok (locus_key {| loc_book := 12; loc_line := 23;
                          loc_suffix := Some 98 |}).
Proof.
  apply create_id_reencodes_key; [reflexivity|].
  vm_compute. intuition discriminate.
Defined.

(** ** The text of a line and its words *)

Lemma lstrip_with_app_keep (p : Z -> bool) (l : str) (c : Z) :
  p c = false -> lstrip_with p (l ++ [c]) = lstrip_with p l ++ [c].
Proof.
  intros Hc. induction l as [|a l IH]; simpl; [by rewrite Hc|].
  by destruct (p a).
Qed.

Lemma lstrip_with_app_nonempty (p : Z -> bool) (l k : str) :
  lstrip_with p l <> [] -> lstrip_with p (l ++ k) = lstrip_with p l ++ k.
Proof.
  induction l as [|a l IH]; simpl; [done|]. by destruct (p a).
Qed.

Lemma rstrip_with_cons_keep (p : Z -> bool) (c : Z) (x : str) :
  p c = false -> rstrip_with p (c :: x) = c :: rstrip_with p x.
Proof.
  intros Hc. unfold rstrip_with. cbn [rev].
  by rewrite lstrip_with_app_keep, rev_unit.
Qed.

Lemma rstrip_with_cons_nonempty (p : Z -> bool) (c : Z) (x : str) :
  rstrip_with p x <> [] -> rstrip_with p (c :: x) = c :: rstrip_with p x.
Proof.
  unfold rstrip_with. intros Hx. cbn [rev].
  rewrite lstrip_with_app_nonempty, rev_unit; [done|].
  intros E. by rewrite E in Hx.
Qed.

Lemma collapse_spaces_lstrip (s : str) (in_run : bool) :
  lstrip_with is_space (collapse_spaces s in_run)
  = collapse_spaces (lstrip_with is_space s) false.
Proof.
  revert in_run. induction s as [|c s IH]; intros in_run; [done|].
  cbn [collapse_spaces lstrip_with]. destruct (is_space c) eqn:E.
  - destruct in_run; [apply IH|]. cbn [lstrip_with].
    change (is_space 32) with true. apply IH.
  - cbn [lstrip_with collapse_spaces]. by rewrite E.
Qed.

Lemma py_split_lstrip (s : str) :
  py_split (lstrip_with is_space s) = py_split s.
Proof.
  induction s as [|c s IH]; [done|]. cbn [lstrip_with].
  destruct (is_space c) eqn:E; [|done]. cbn [py_split]. by rewrite E.
Qed.

Lemma py_split_head (c : Z) (s : str) :
  is_space c = false -> py_split (c :: s) <> [].
Proof.
  intros E. cbn [py_split]. rewrite E.
  destruct s as [|d s]; [done|].
  destruct (py_split (d :: s)); [done|]. by destruct (is_space d).
Qed.

Lemma join_on_head (sep part : str) (c : Z) (rest : list str) :
  join_on sep ((c :: part) :: rest) = c :: join_on sep (part :: rest).
Proof. by destruct rest. Qed.

Lemma py_split_cons_word (c : Z) (s : str) :
  is_space c = false ->
  py_split (c :: s)
  = match s, py_split s with
    | d :: _, w :: ws =>
        if is_space d then [c] :: w :: ws else (c :: w) :: ws
    | _, ws => [c] :: ws
    end.
Proof.
  intros E. destruct s as [|d s]; [by simpl; rewrite E|].
  change (py_split (c :: d :: s))
    with (if is_space c then py_split (d :: s)
          else match py_split (d :: s) with
               | w :: ws =>
                   if is_space d then [c] :: py_split (d :: s)
                   else (c :: w) :: ws
               | [] => [c] :: py_split (d :: s)
               end).
  rewrite E. by destruct (py_split (d :: s)).
Qed.

Lemma py_split_cons_space (c : Z) (s : str) :
  is_space c = true -> py_split (c :: s) = py_split s.
Proof. intros E. cbn [py_split]. by rewrite E. Qed.

Lemma collapse_spaces_cons_word (c : Z) (s : str) (in_run : bool) :
  is_space c = false ->
  collapse_spaces (c :: s) in_run = c :: collapse_spaces s false.
Proof. intros E. cbn [collapse_spaces]. by rewrite E. Qed.

Lemma collapse_spaces_cons_space (c : Z) (s : str) :
  is_space c = true ->
  collapse_spaces (c :: s) true = collapse_spaces s true
  /\ collapse_spaces (c :: s) false = 32 :: collapse_spaces s true.
Proof. intros E. cbn [collapse_spaces]. by rewrite E. Qed.

(** The collapsed text without its trailing blank is the words joined by
    single blanks; stated for a text at the start of a word and for a text
    inside a run of white space. *)
Lemma collapse_spaces_words (s : str) :
  (match s with c :: _ => is_space c = false | [] => True end ->
   rstrip_with is_space (collapse_spaces s false)
   = join_on [32] (py_split s))
  /\ rstrip_with is_space (32 :: collapse_spaces s true)
     = match py_split s with
       | [] => []
       | _ :: _ => 32 :: join_on [32] (py_split s)
       end.
Proof.
  induction s as [|c s [IHa IHb]]; [by split|].
  destruct (is_space c) eqn:E.
  - split; [intros H; congruence|].
    destruct (collapse_spaces_cons_space c s E) as [-> _].
    by rewrite py_split_cons_space.
  - assert (Ha : rstrip_with is_space (collapse_spaces (c :: s) false)
                 = join_on [32] (py_split (c :: s))).
    { rewrite collapse_spaces_cons_word, rstrip_with_cons_keep by done.
      rewrite py_split_cons_word by done.
      destruct s as [|d s]; [done|].
      destruct (is_space d) eqn:Ed.
      - destruct (collapse_spaces_cons_space d s Ed) as [Et ->].
        rewrite Et in IHb. rewrite IHb.
        by destruct (py_split (d :: s)).
      - rewrite IHa by done. pose proof (py_split_head d s Ed) as Hne.
        destruct (py_split (d :: s)) as [|w ws]; [done|].
        by rewrite join_on_head. }
    split; [done|].
    rewrite collapse_spaces_cons_word by done.
    rewrite rstrip_with_cons_nonempty.
    + rewrite <- (collapse_spaces_cons_word c s false) by done. rewrite Ha.
      pose proof (py_split_head c s E) as Hne.
      by destruct (py_split (c :: s)).
    + by rewrite rstrip_with_cons_keep.
Qed.

Lemma lstrip_with_head (p : Z -> bool) (s : str) :
  match lstrip_with p s with c :: _ => p c = false | [] => True end.
Proof.
  induction s as [|c s IH]; simpl; [done|].
  by destruct (p c) eqn:E.
Qed.

Lemma clean_text_words (text : str) :
  clean_text text = join_on [32] (py_split text).
Proof.
  unfold clean_text, strip, strip_with.
  fold (rstrip_with is_space
          (lstrip_with is_space (collapse_spaces text false))).
  rewrite collapse_spaces_lstrip.
  destruct (collapse_spaces_words (lstrip_with is_space text)) as [Ha _].
  rewrite Ha by apply lstrip_with_head. by rewrite py_split_lstrip.
Qed.

Lemma py_split_words (s : str) : Forall is_word (py_split s).
Proof.
  induction s as [|c s IH]; [constructor|].
  destruct (is_space c) eqn:E; [by rewrite py_split_cons_space|].
  rewrite py_split_cons_word by done.
  assert (Hc : is_word [c]) by (split; [done | by repeat constructor]).
  destruct s as [|d s]; [by repeat constructor|].
  destruct (py_split (d :: s)) as [|w ws]; [by repeat constructor|].
  destruct (is_space d); [by constructor|].
  apply Forall_cons in IH as [[_ Hw] Hws].
  constructor; [|done]. split; [done | by constructor].
Qed.

Lemma py_split_word_cons (w rest : str) (c : Z) :
  is_space c = false -> Forall (fun c => is_space c = false) w ->
  py_split (c :: w ++ 32 :: rest) = (c :: w) :: py_split rest.
Proof.
  intros Hc Hw. revert c Hc.
  induction Hw as [|d w Hd Hw IH]; intros c Hc.
  - rewrite py_split_cons_word by done. cbn [app].
    rewrite (py_split_cons_space 32) by done. by destruct (py_split rest).
  - rewrite py_split_cons_word by done.
    change ((d :: w) ++ 32 :: rest) with (d :: w ++ 32 :: rest).
    lazy iota. by rewrite IH, Hd.
Qed.

Lemma py_split_word_app (w rest : str) :
  is_word w -> py_split (w ++ 32 :: rest) = w :: py_split rest.
Proof.
  intros [Hne Hw]. destruct w as [|c w]; [done|].
  apply Forall_cons in Hw as [Hc Hw]. by apply py_split_word_cons.
Qed.

Lemma py_split_word (w : str) : is_word w -> py_split w = [w].
Proof.
  intros [Hne Hw]. induction Hw as [|c w Hc Hw IH]; [done|].
  rewrite py_split_cons_word by done. destruct w as [|d w]; [done|].
  rewrite IH by done. apply Forall_cons in Hw as [Hd _]. by rewrite Hd.
Qed.

Lemma py_split_join (words : list str) :
  Forall is_word words -> py_split (join_on [32] words) = words.
Proof.
  induction 1 as [|w words Hw Hws IH]; [done|].
  destruct words as [|w' words]; [by apply py_split_word|].
  rewrite join_on_cons by done. change ([32] ++ ?x) with (32 :: x).
  by rewrite py_split_word_app, IH.
Qed.

(** The text stored for a line is its words joined by single blanks: no
    white space at either end, none but the blank, no two blanks in a row;
    and each word is non-empty and free of white space. *)
Theorem clean_text_joins_words (text : str) :
  clean_text text = join_on [32] (py_split text)
  /\ Forall is_word (py_split text).
Proof. split; [apply clean_text_words | apply py_split_words]. Qed.

(** Cleaning the text of a line changes none of the words the main block
    gets from it, and cleaning twice is cleaning once. *)
Theorem clean_text_keeps_words (text : str) :
  py_split (clean_text text) = py_split text
  /\ clean_text (clean_text text) = clean_text text.
Proof.
  assert (E : py_split (clean_text text) = py_split text).
  { rewrite clean_text_words. apply py_split_join, py_split_words. }
  split; [exact E|].
  by rewrite (clean_text_words (clean_text text)), E, <- clean_text_words.
Qed.

Example clean_text_demo :
  clean_text (lit "  ab  c d  ") = lit "ab c d"
  /\ py_split (lit "  ab  c d  ") = [lit "ab"; lit "c"; lit "d"].
Proof. split; reflexivity. Qed.
